(** * Krom inspector bridge: a shallow embedding of [Sources/inspector-test.cpp]

    The file embeds the native function bridge ([print], [quit], [setlocale],
    [load], [setTimeout]), the global shutdown routine, the frontend channel,
    the backend dispatch task and the start-up sequence of [kore], and proves
    the properties the specification states about them.

    Effects are threaded through a state monad over a [World]; every
    observable action (output, runner control, transport send, script
    execution) is appended to the world's [trace]. *)

From Stdlib Require Import ZArith List String Ascii Lia Floats.SpecFloat.
From stdpp Require Import base option list strings gmap.

Open Scope string_scope.
Open Scope list_scope.

(** ** Identifiers *)

(** A [TaskRunner*], a [v8::Context], a [V8InspectorSession*], a [V8Inspector*]
    and a [v8::Function] are all handles; only their identity matters. *)
Abbreviation runner := nat.
Abbreviation context := nat.
Abbreviation session := nat.
Abbreviation inspector := nat.
Abbreviation function := nat.

(** ** Script values *)

(** The shapes of [v8::Value] the bridge distinguishes.  A script string is
    kept as the text it denotes; [VObject] carries the result of the object's
    own string conversion, [None] when that conversion throws. *)
Inductive Value :=
| VUndefined
| VNull
| VBoolean (b : bool)
| VNumber (d : spec_float)
| VString (s : string)
| VSymbol (description : option string)
| VFunction (f : function)
| VObject (to_string : option string).

Definition IsSymbol (v : Value) : bool :=
  match v with VSymbol _ => true | _ => false end.
Definition IsString (v : Value) : bool :=
  match v with VString _ => true | _ => false end.
Definition IsFunction (v : Value) : bool :=
  match v with VFunction _ => true | _ => false end.
Definition IsNumber (v : Value) : bool :=
  match v with VNumber _ => true | _ => false end.

(** [v8::Symbol::Name]: the description, or undefined when there is none. *)
Definition Name (v : Value) : Value :=
  match v with
  | VSymbol (Some d) => VString d
  | _ => VUndefined
  end.

(** [args[i]]: reading past [args.Length()] yields undefined. *)
Definition arg (args : list Value) (i : nat) : Value :=
  default VUndefined (args !! i).

(** ** Tasks *)

Inductive Task :=
| ExecuteStringTask (source : string)
| SetTimeoutTask (function_ : function)
| SendMessageToBackendTask (message_ : string).

(** The category flag; [ExecuteStringTask] is declared in task-runner.h and is
    a script task. *)
Definition is_inspector_task (t : Task) : bool :=
  match t with
  | SendMessageToBackendTask _ => true
  | SetTimeoutTask _ => false
  | ExecuteStringTask _ => false
  end.

(** ** Observable actions *)

Inductive Event :=
| Stdout (s : string)
| Stderr (s : string)
| FlushStdout
| FlushStderr
| RunnerTerminate (r : runner)
| RunnerJoin (r : runner)
| Setlocale (name : option string)
| ReadFile (path : string)
| ThrowException (msg : string)
| ReThrow
| ExecuteString (c : context) (source : string)
| WillExecuteScript (i : inspector) (c : context) (f : function)
| CallFunction (c : context) (f : function)
| DidExecuteScript (i : inspector) (c : context)
| DispatchProtocolMessage (s : session) (text : string)
| SendMessage (text : list Z).

(** ** The world *)

Record World := mkWorld {
  task_runners : list runner;
  backend_task_runner : option runner;
  registry : gmap context runner;
  queues : gmap runner (list Task);
  terminated : gset runner;
  sessions : gmap context session;
  inspectors : gmap context inspector;
  files : gmap string string;
  trace : list Event
}.

Definition set_task_runners (l : list runner) (w : World) : World :=
  mkWorld l (backend_task_runner w) (registry w) (queues w) (terminated w)
          (sessions w) (inspectors w) (files w) (trace w).

Definition set_queues (q : gmap runner (list Task)) (w : World) : World :=
  mkWorld (task_runners w) (backend_task_runner w) (registry w) q
          (terminated w) (sessions w) (inspectors w) (files w) (trace w).

Definition set_terminated (t : gset runner) (w : World) : World :=
  mkWorld (task_runners w) (backend_task_runner w) (registry w) (queues w) t
          (sessions w) (inspectors w) (files w) (trace w).

Definition set_trace (t : list Event) (w : World) : World :=
  mkWorld (task_runners w) (backend_task_runner w) (registry w) (queues w)
          (terminated w) (sessions w) (inspectors w) (files w) t.

(** The tasks waiting on runner [r], oldest first. *)
Definition queue_of (r : runner) (w : World) : list Task :=
  default [] (queues w !! r).

(** [w] with task [t] at the back of the queue of runner [r]. *)
Definition enqueue (r : runner) (t : Task) (w : World) : World :=
  set_queues (<[r := queue_of r w ++ [t]]> (queues w)) w.

(** ** The effect monad *)

(** Why control does not come back to the caller. *)
Inductive Halt :=
| ProcessExit     (* the process exited *)
| CheckFailed     (* a CHECK aborted the process *)
| NullPointer     (* a null or unregistered handle was dereferenced *)
| OutOfBounds.    (* a store or load past the end of an array *)

Inductive Outcome (A : Type) :=
| Returns (a : A) (w : World)
| Stops (h : Halt) (w : World).
Arguments Returns {A} a w.
Arguments Stops {A} h w.

Definition M (A : Type) : Type := World -> Outcome A.

#[global] Instance M_ret : MRet M := fun A a w => Returns a w.
#[global] Instance M_bind : MBind M := fun A B k m w =>
  match m w with
  | Returns a w' => k a w'
  | Stops h w' => Stops h w'
  end.

Definition gets {A} (f : World -> A) : M A := fun w => Returns (f w) w.
Definition modify (f : World -> World) : M unit := fun w => Returns tt (f w).
Definition stop {A} (h : Halt) : M A := fun w => Stops h w.
Definition emit (e : Event) : M unit :=
  modify (fun w => set_trace (trace w ++ [e]) w).

(** The world an outcome ends in. *)
Definition world_of {A} (o : Outcome A) : World :=
  match o with Returns _ w => w | Stops _ w => w end.

(** [for (x : l) body(x)]. *)
Fixpoint for_each {A} (l : list A) (body : A -> M unit) : M unit :=
  match l with
  | [] => mret tt
  | x :: l' => body x ;; for_each l' body
  end.

(** ** Collaborators *)

(** What the embedded engine and the C library decide: number and function
    printing, how many bytes an [fwrite] gets out given the history so far,
    and the text read through an unchecked [As<v8::String>] cast of a value
    that is no string. *)
Class Engine := {
  NumberToString : spec_float -> string;
  FunctionToString : function -> string;
  fwrite_accepts : list Event -> string -> nat;
  unchecked_string : Value -> string
}.

Section Bridge.
Context `{Engine}.

(** [v8::Value::ToString]: [None] when the conversion throws (a symbol, or an
    object whose own conversion throws). *)
Definition Value_ToString (v : Value) : option string :=
  match v with
  | VUndefined => Some "undefined"
  | VNull => Some "null"
  | VBoolean true => Some "true"
  | VBoolean false => Some "false"
  | VNumber d => Some (NumberToString d)
  | VString s => Some s
  | VSymbol _ => None
  | VFunction f => Some (FunctionToString f)
  | VObject o => o
  end.

(** [v8::String::Utf8Value str(v)]: the converted text, or a null [*str] of
    length 0 when the conversion fails. *)
Definition Utf8Value (v : Value) : option string := Value_ToString v.

(** [ToVector(args[0].As<v8::String>())]. *)
Definition ToVector (v : Value) : string :=
  match v with
  | VString s => s
  | _ => unchecked_string v
  end.

(** *** C library *)

Definition printf (s : string) : M unit := emit (Stdout s).
Definition fprintf_stderr (s : string) : M unit := emit (Stderr s).
Definition fflush_stdout : M unit := emit FlushStdout.
Definition fflush_stderr : M unit := emit FlushStderr.

(** [fwrite(p, 1, n, stdout)]: returns the number of bytes written, at most
    [n]; those bytes reach stdout. *)
Definition fwrite (s : string) : M nat := fun w =>
  let n := Nat.min (fwrite_accepts (trace w) s) (String.length s) in
  Returns n (set_trace (trace w ++ [Stdout (substring 0 n s)]) w).

(** *** TaskRunner (task-runner.h) *)

(** Modelled from the spec: [TaskRunner::Append] is declared in task-runner.h,
    which is not part of the sources; it is a thread-safe enqueue at the back
    of the runner's unbounded FIFO queue. *)
Definition TaskRunner_Append (r : runner) (t : Task) : M unit :=
  modify (enqueue r t).

(** Modelled from the spec: [TaskRunner::Terminate] is declared in
    task-runner.h; it sets the runner's termination flag, after which no
    further task is started. *)
Definition TaskRunner_Terminate (r : runner) : M unit :=
  emit (RunnerTerminate r) ;;
  modify (fun w => set_terminated ({[r]} ∪ terminated w) w).

(** Modelled from the spec: [TaskRunner::Join] is declared in task-runner.h;
    it returns once the runner's thread has exited.  The model records the
    call and goes on: it follows the run in which every join comes back, and
    so gives the order of the calls.  Whether a runner that joins itself
    comes back is up to the thread library and is not decided here. *)
Definition TaskRunner_Join (r : runner) : M unit :=
  emit (RunnerJoin r).

(** Modelled from the spec: [TaskRunner::FromContext] is declared in
    task-runner.h; a registry lookup from a live context to its runner. *)
Definition TaskRunner_FromContext (c : context) : M runner :=
  r ← gets (fun w => registry w !! c);
  match r with
  | Some r => mret r
  | None => stop NullPointer
  end.

(** ** Global shutdown (lines 28-41) *)

Definition Terminate : M unit :=
  rs ← gets task_runners;
  for_each rs (fun r => TaskRunner_Terminate r ;; TaskRunner_Join r) ;;
  modify (set_task_runners []).

Definition Exit : M unit :=
  fflush_stdout ;;
  fflush_stderr ;;
  Terminate.

(** ** Native function bridge *)

(** [const v8::FunctionCallbackInfo<v8::Value>&]: the arguments of a native
    call and the context the calling script runs in. *)
Record FunctionCallbackInfo := {
  GetCurrentContext : context;
  Args : list Value
}.

Definition Length (args : FunctionCallbackInfo) : nat := length (Args args).

Notation "args [[ i ]]" := (arg (Args args) i) (at level 1, format "args [[ i ]]").

Definition newline : string := String (ascii_of_nat 10) EmptyString.

(** [s.c_str()] read as a C string: the bytes before the first NUL. *)
Fixpoint c_str (s : string) : string :=
  match s with
  | EmptyString => EmptyString
  | String a s' =>
      if decide (a = Ascii.zero) then EmptyString else String a (c_str s')
  end.

Definition Quit (args : FunctionCallbackInfo) : M unit := Exit.

(** The loop of [Print] from index [i] on; the result is [false] when the
    loop left the function through its early [return]. *)
Fixpoint Print_loop (args : FunctionCallbackInfo) (i : nat) (rest : list Value)
  : M bool :=
  match rest with
  | [] => mret true
  | a :: rest' =>
      (if decide (i ≠ 0) then printf " " else mret tt) ;;
      let a := if IsSymbol a then Name a else a in
      match Value_ToString a with
      | None => emit ReThrow ;; mret false
      | Some str =>
          n ← fwrite str;
          (if decide (n ≠ String.length str)
           then printf ("Error in fwrite" +:+ newline) ;; Quit args
           else mret tt) ;;
          Print_loop args (S i) rest'
      end
  end.

Definition Print (args : FunctionCallbackInfo) : M unit :=
  completed ← Print_loop args 0 (Args args);
  if completed : bool then printf newline ;; fflush_stdout else mret tt.

(** [args.Length() != 1 || !args[0]->IsString()], the check of [SetLocale]
    and of [Load]. *)
Definition not_one_string (args : FunctionCallbackInfo) : bool :=
  negb (Length args =? 1)%nat || negb (IsString args[[0]]).

Definition SetLocale (args : FunctionCallbackInfo) : M unit :=
  (if not_one_string args
   then fprintf_stderr "Internal error: setlocale get one string argument." ;;
        Exit
   else mret tt) ;;
  let str := Utf8Value args[[0]] in
  emit (Setlocale (c_str <$> str)).

(** [v8::internal::ReadFile(name, &exists)] on the world's files. *)
Definition ReadFile_ (name : string) : M (option string) :=
  emit (ReadFile name) ;;
  gets (fun w => files w !! name).

(** Modelled from the spec: [ExecuteStringTask::Run] is declared in
    task-runner.h; it parses and executes the text as a top-level unit in the
    given context. *)
Definition ExecuteStringTask_Run (source : string) (c : context) : M unit :=
  emit (ExecuteString c source).

Definition Load (args : FunctionCallbackInfo) : M unit :=
  (if not_one_string args
   then fprintf_stderr "Internal error: load gets one string argument." ;;
        Exit
   else mret tt) ;;
  let str := Utf8Value args[[0]] in
  let filename := default EmptyString str in
  chars ← ReadFile_ (c_str filename);
  match chars with
  | None => emit (ThrowException "Error loading file")
  | Some chars =>
      ExecuteStringTask_Run chars (GetCurrentContext args)
  end.

(** [args[1].As<v8::Number>()->Value()]; only evaluated on a number. *)
Definition Number_Value (v : Value) : spec_float :=
  match v with VNumber d => d | _ => S754_nan end.

Definition SetTimeout_rejects (args : FunctionCallbackInfo) : bool :=
  negb (Length args =? 2)%nat || negb (IsNumber args[[1]]) ||
  (negb (IsFunction args[[0]]) && negb (IsString args[[0]])) ||
  negb (SFeqb (Number_Value args[[1]]) (S754_zero false)).

Definition SetTimeout (args : FunctionCallbackInfo) : M unit :=
  (if SetTimeout_rejects args
   then fprintf_stderr
          "Internal error: only setTimeout(function, 0) is supported." ;;
        Exit
   else mret tt) ;;
  let context := GetCurrentContext args in
  match args[[0]] with
  | VFunction f =>
      r ← TaskRunner_FromContext context;
      TaskRunner_Append r (SetTimeoutTask f)
  | v =>
      r ← TaskRunner_FromContext context;
      TaskRunner_Append r (ExecuteStringTask (ToVector v))
  end.

(** ** Tasks at run time *)

(** [SetTimeoutTask::Run] (lines 158-173); [InspectorFromContext] is a lookup
    that may come back null. *)
Definition SetTimeoutTask_Run (f : function) (c : context) : M unit :=
  i ← gets (fun w => inspectors w !! c);
  (match i with Some i => emit (WillExecuteScript i c f) | None => mret tt end) ;;
  emit (CallFunction c f) ;;
  match i with Some i => emit (DidExecuteScript i c) | None => mret tt end.

(** [SendMessageToBackendTask::Run] (lines 266-277). *)
Definition SendMessageToBackendTask_Run (message_ : string) (c : context)
  : M unit :=
  s ← gets (fun w => sessions w !! c);
  match s with
  | None => stop CheckFailed
  | Some s => emit (DispatchProtocolMessage s message_)
  end.

Definition Run (t : Task) (c : context) : M unit :=
  match t with
  | ExecuteStringTask source => ExecuteStringTask_Run source c
  | SetTimeoutTask f => SetTimeoutTask_Run f c
  | SendMessageToBackendTask m => SendMessageToBackendTask_Run m c
  end.

(** Modelled from the spec: the dispatch loop of [TaskRunner] is defined in
    task-runner.cc, which is not part of the sources.  One iteration of the
    loop of the runner owning context [c]: unless termination was requested
    or the queue is empty, the earliest task is removed and run with [c]
    active. *)
Definition TaskRunner_RunNext (c : context) : M unit :=
  r ← TaskRunner_FromContext c;
  dead ← gets (fun w => bool_decide (r ∈ terminated w));
  q ← gets (queue_of r);
  match dead, q with
  | false, t :: q' =>
      modify (fun w => set_queues (<[r := q']> (queues w)) w) ;;
      Run t c
  | _, _ => mret tt
  end.

(** ** Debug session bridge *)

(** [receiveMessage_] (lines 291-301).  [message] is the text the [char*]
    points to, which is what the [std::string] built from it holds. *)
Definition receiveMessage_ (message : string) : M unit :=
  r ← gets backend_task_runner;
  match r with
  | None => stop NullPointer
  | Some r => TaskRunner_Append r (SendMessageToBackendTask message)
  end.

End Bridge.

(** ** Frontend channel (lines 231-258) *)

(** [v8_inspector::StringView]: an encoding flag, a length and a pointer.
    [characters] is the memory the pointer refers to, one code unit per
    element; it may extend past [length_], and nothing says it holds a
    terminator. *)
Record StringView := {
  is8Bit : bool;
  characters : list Z;
  length_ : nat
}.

(** A view denotes its first [length_] code units. *)
Definition text_of (message : StringView) : list Z :=
  take (length_ message) (characters message).

(** The pointer covers the whole view. *)
Definition well_formed (message : StringView) : Prop :=
  length_ message <= length (characters message).

(** A [char] array on the stack; a cell is [None] until it is stored to. *)
Abbreviation buffer := (list (option Z)).

(** [char msg[2048];] *)
Definition msg_size : nat := 2048.
Definition msg_uninitialised : buffer := replicate msg_size None.

(** [(char)c]: the low eight bits. *)
Definition to_char (c : Z) : Z := Z.land c 255.

(** [buf[i] = v]; [None] when [i] is past the array. *)
Definition store (buf : buffer) (i : nat) (v : Z) : option buffer :=
  if decide (i < length buf) then Some (<[i := Some v]> buf) else None.

(** [for (; i < i + n; ++i) buf[i] = (char)chars[i];] *)
Fixpoint narrow_into (chars : list Z) (n i : nat) (buf : buffer)
  : option buffer :=
  match n with
  | 0 => Some buf
  | S n' =>
      c ← chars !! i;
      buf' ← store buf i (to_char c);
      narrow_into chars n' (S i) buf'
  end.

(** The text a [const char*] denotes: the bytes before the first NUL.  [None]
    when the read reaches an unwritten cell or the end of the memory. *)
Fixpoint c_string (mem : buffer) : option (list Z) :=
  match mem with
  | [] => None
  | None :: _ => None
  | Some c :: mem' =>
      if decide (c = 0%Z) then Some [] else (c ::.) <$> c_string mem'
  end.

(** [sendMessage] of debug_server.h, the transport's send primitive; it takes
    a [const char*]. *)
Definition sendMessage (p : buffer) : M unit :=
  match c_string p with
  | Some text => emit (SendMessage text)
  | None => stop OutOfBounds
  end.

(** [SendMessageToFrontend] (lines 237-254).  The [v8::String] built first by
    [ToString(isolate, message)] (lines 217-229) is not used afterwards;
    building it reads [length_] code units of the view, a read the model
    leaves out.  On a [well_formed] view that read stays inside the memory
    and changes nothing. *)
Definition SendMessageToFrontend (message : StringView) : M unit :=
  if is8Bit message then
    sendMessage (Some <$> characters message)
  else
    match narrow_into (characters message) (length_ message) 0
                      msg_uninitialised with
    | None => stop OutOfBounds
    | Some msg =>
        match store msg (length_ message) 0 with
        | None => stop OutOfBounds
        | Some msg => sendMessage msg
        end
    end.

(** ** Start-up sequence of [kore] (lines 324-354) *)

Module Startup.

(** The four parties that are handed [ready_semaphore]. *)
Inductive Stage := Backend | Frontend | Bridge | Transport.

#[global] Instance Stage_eq_dec : EqDecision Stage.
Proof. solve_decision. Defined.

(** The statements of the main sequence that matter for the hand-shake. *)
Inductive Instr :=
| CreateBackendRunner      (* TaskRunner backend_runner(.., &ready_semaphore) *)
| SetBackendTaskRunner     (* backend_task_runner = &backend_runner *)
| Wait                     (* ready_semaphore.Wait() *)
| SetExtensionRunner       (* set_backend_task_runner(&backend_runner) *)
| CreateFrontendRunner     (* TaskRunner frontend_runner(.., &ready_semaphore) *)
| CreateFrontendChannel    (* FrontendChannelImpl frontend_channel(..) *)
| CreateInspectorClient    (* InspectorClientImpl inspector_client(.., sem) *)
| PushBack (s : Stage)     (* task_runners.push_back(..) *)
| SetReceiveCallback       (* receiveMessageCallback = receiveMessage_ *)
| StartServer              (* startServer(&ready_semaphore) *)
| Spin.                    (* while (true) {} *)

#[global] Instance Instr_eq_dec : EqDecision Instr.
Proof. solve_decision. Defined.

(** The main sequence, statement by statement. The [Wait] that followed
    [startServer] is commented out in the source and so is not part of it. *)
Definition kore : list Instr :=
  [ CreateBackendRunner; SetBackendTaskRunner; Wait; SetExtensionRunner;
    CreateFrontendRunner; Wait;
    CreateFrontendChannel; CreateInspectorClient; Wait;
    PushBack Frontend; PushBack Backend;
    SetReceiveCallback; StartServer;
    Spin ].

(** The party a statement brings to life. *)
Definition starts (i : Instr) : option Stage :=
  match i with
  | CreateBackendRunner => Some Backend
  | CreateFrontendRunner => Some Frontend
  | CreateInspectorClient => Some Bridge
  | StartServer => Some Transport
  | _ => None
  end.

Record State := mkState {
  pc : nat;                  (* index of the next statement of [kore] *)
  ready_semaphore : nat;     (* the semaphore's count *)
  started : list Stage;      (* parties created so far, oldest first *)
  signalled : list Stage;    (* parties that have signalled, oldest first *)
  task_runners : list Stage  (* the global vector *)
}.

(** [v8::base::Semaphore ready_semaphore(0);] *)
Definition initial : State := mkState 0 0 [] [] [].

(** One statement of the main thread; [None] while it is blocked in [Wait]
    (or has run off the sequence, which [Spin] prevents). *)
Definition main_step (st : State) : option State :=
  i ← kore !! pc st;
  match i with
  | Wait =>
      match ready_semaphore st with
      | 0 => None
      | S n => Some (mkState (S (pc st)) n (started st) (signalled st)
                             (task_runners st))
      end
  | Spin => Some st
  | PushBack s =>
      Some (mkState (S (pc st)) (ready_semaphore st) (started st)
                    (signalled st) (task_runners st ++ [s]))
  | _ =>
      Some (mkState (S (pc st)) (ready_semaphore st)
                    (started st ++ option_list (starts i)) (signalled st)
                    (task_runners st))
  end.

(** Modelled from the spec: the parties themselves (task-runner.cc,
    inspector-impl.cc, debug_server) are not part of the sources; each one
    signals the semaphore it was given once, some time after it was
    created. *)
Definition signal_step (s : Stage) (st : State) : option State :=
  if decide (s ∈ started st ∧ s ∉ signalled st)
  then Some (mkState (pc st) (S (ready_semaphore st)) (started st)
                     (signalled st ++ [s]) (task_runners st))
  else None.

Inductive step (st st' : State) : Prop :=
| step_main : main_step st = Some st' -> step st st'
| step_signal (s : Stage) : signal_step s st = Some st' -> step st st'.

Definition reachable (st : State) : Prop := rtc step initial st.

(** The index of the idle loop that ends the sequence. *)
Definition idle : nat := 13.

(** How many [Wait]s the main thread has passed, and which parties it has
    created, once it stands before statement [n]. *)
Definition waits_before (n : nat) : nat :=
  length (filter (fun i => i = Wait) (take n kore)).
Definition started_before (n : nat) : list Stage :=
  omap starts (take n kore).

(** The barrier: a party is only created once the party before it has
    signalled. *)
Definition barrier (st : State) : Prop :=
  (Frontend ∈ started st -> Backend ∈ signalled st) ∧
  (Bridge ∈ started st -> Frontend ∈ signalled st) ∧
  (Transport ∈ started st -> Bridge ∈ signalled st).

(** What holds of every state the start-up can be in. *)
Definition invariant (st : State) : Prop :=
  pc st < length kore ∧
  ready_semaphore st + waits_before (pc st) = length (signalled st) ∧
  started st = started_before (pc st) ∧
  NoDup (signalled st) ∧
  (∀ s, s ∈ signalled st -> s ∈ started st) ∧
  barrier st.

(** A schedule: [None] lets the main thread take a step, [Some s] lets party
    [s] signal. *)
Fixpoint run (schedule : list (option Stage)) (st : State) : option State :=
  match schedule with
  | [] => Some st
  | None :: schedule' => st' ← main_step st; run schedule' st'
  | Some s :: schedule' => st' ← signal_step s st; run schedule' st'
  end.

End Startup.

(** ** Worlds the operations end in *)

(** What [Terminate] does to the runners [rs], in order. *)
Definition shutdown_events (rs : list runner) : list Event :=
  rs ≫= fun r => [RunnerTerminate r; RunnerJoin r].

Definition terminate_all (rs : list runner) (t : gset runner) : gset runner :=
  foldl (fun t r => {[r]} ∪ t) t rs.

(** [w] once the events [es] have happened. *)
Definition after (es : list Event) (w : World) : World :=
  set_trace (trace w ++ es) w.

(** [w] once [Exit] has run. *)
Definition after_Exit (w : World) : World :=
  set_task_runners []
    (set_terminated (terminate_all (task_runners w) (terminated w))
       (after (FlushStdout :: FlushStderr :: shutdown_events (task_runners w))
              w)).

(** [w] once a failed argument check has reported [m] and run [Exit]. *)
Definition after_rejection (m : string) (w : World) : World :=
  after_Exit (after [Stderr m] w).

(** The task [SetTimeout] builds from its first argument. *)
Definition SetTimeout_task `{Engine} (target : Value) : Task :=
  match target with
  | VFunction f => SetTimeoutTask f
  | v => ExecuteStringTask (ToVector v)
  end.

Definition setlocale_error : string :=
  "Internal error: setlocale get one string argument.".
Definition load_error : string :=
  "Internal error: load gets one string argument.".
Definition setTimeout_error : string :=
  "Internal error: only setTimeout(function, 0) is supported.".

(** The text [Print] writes for one argument: a symbol goes by its name;
    [None] when the conversion throws. *)
Definition print_text `{Engine} (a : Value) : option string :=
  Value_ToString (if IsSymbol a then Name a else a).

(** The separator [Print] writes before the argument at index [i]. *)
Definition separator (i : nat) : list Event :=
  if decide (i ≠ 0) then [Stdout " "] else [].

(** What the loop of [Print] writes for the texts [strs] from index [i] on,
    when every write is complete. *)
Fixpoint print_events (i : nat) (strs : list string) : list Event :=
  match strs with
  | [] => []
  | s :: strs' => separator i ++ Stdout s :: print_events (S i) strs'
  end.


(** The arguments [l] convert, in order, to the texts [strs]. *)
Definition converts `{Engine} (l : list Value) (strs : list string) : Prop :=
  Forall2 (fun a s => print_text a = Some s) l strs.

(** Stdout takes each of the texts [strs] whole, whenever it is written. *)
Definition writes_whole `{Engine} (strs : list string) : Prop :=
  ∀ h s, s ∈ strs -> String.length s <= fwrite_accepts h s.

(** ** Concrete instances used to exercise the model *)

Module Example.

(** An engine whose [fwrite] always writes everything. *)
Definition sound_engine : Engine := {|
  NumberToString d :=
    match d with
    | S754_zero _ => "0"
    | S754_nan => "NaN"
    | S754_infinity false => "Infinity"
    | S754_infinity true => "-Infinity"
    | S754_finite _ _ _ => "1"
    end;
  FunctionToString f := "function () { [native code] }";
  fwrite_accepts h s := String.length s;
  unchecked_string v := EmptyString
|}.


Definition backend_runner : runner := 0.
Definition frontend_runner : runner := 1.
Definition backend_context : context := 10.
Definition frontend_context : context := 11.

(** The world [kore] has set up once the server is started: both runners
    registered, frontend first in [task_runners], a session and an inspector
    on the backend context, one script on disk. *)
Definition world : World := {|
  task_runners := [frontend_runner; backend_runner];
  backend_task_runner := Some backend_runner;
  registry := {[ backend_context := backend_runner;
                 frontend_context := frontend_runner ]};
  queues := ∅;
  terminated := ∅;
  sessions := {[ backend_context := 7 ]};
  inspectors := {[ backend_context := 3 ]};
  files := {[ "test.js" := "print(1)" ]};
  trace := []
|}.

(** A native call made by a script of the frontend. *)
Definition call (args : list Value) : FunctionCallbackInfo :=
  {| GetCurrentContext := frontend_context; Args := args |}.

(** A start-up in which every party signals as soon as it may, up to the
    point where the main thread has started the server and idles; the
    transport has not signalled. *)
Definition schedule : list (option Startup.Stage) :=
  [ None; None; Some Startup.Backend; None;
    None; None; Some Startup.Frontend; None;
    None; None; Some Startup.Bridge; None;
    None; None; None; None ].

Definition idling : Startup.State :=
  Startup.mkState Startup.idle 0
    [Startup.Backend; Startup.Frontend; Startup.Bridge; Startup.Transport]
    [Startup.Backend; Startup.Frontend; Startup.Bridge]
    [Startup.Frontend; Startup.Backend].

(** [0.0] and [1.0]. *)
Definition zero : spec_float := S754_zero false.
Definition one : spec_float := S754_finite false 1 0.

End Example.

(** ** Further operations of the file *)

(** The callbacks the two extensions hand out. *)
Inductive NativeFunction :=
| NativePrint
| NativeQuit
| NativeSetLocale
| NativeLoad
| NativeSetTimeout.

(** The native functions the source text of [UtilsExtension] declares
    (lines 46-50). *)
Definition UtilsExtension_declared : list string :=
  ["print"; "quit"; "setlocale"; "load"].

(** [UtilsExtension::GetNativeFunctionTemplate] (lines 51-79); [None] is the
    empty template. *)
Definition UtilsExtension_GetNativeFunctionTemplate (name : string)
  : option NativeFunction :=
  if decide (name = "print") then Some NativePrint
  else if decide (name = "quit") then Some NativeQuit
  else if decide (name = "setlocale") then Some NativeSetLocale
  else if decide (name = "load") then Some NativeLoad
  else None.

(** [SetTimeoutExtension::GetNativeFunctionTemplate] (lines 192-195). *)
Definition SetTimeoutExtension_GetNativeFunctionTemplate (name : string)
  : option NativeFunction :=
  Some NativeSetTimeout.

(** The argument shape [SetTimeout] accepts: two arguments, a function or a
    string and then the number +0 or -0. *)
Definition SetTimeout_accepts (args : FunctionCallbackInfo) : Prop :=
  ∃ target sign,
    Args args = [target; VNumber (S754_zero sign)] ∧
    (IsFunction target = true ∨ IsString target = true).

(** Modelled from the spec: [n] consecutive turns of the dispatch loop of the
    runner owning context [c] (task-runner.cc is not part of the sources). *)
Fixpoint TaskRunner_RunTurns (c : context) (n : nat) : M unit :=
  match n with
  | 0 => mret tt
  | S n' => TaskRunner_RunNext c ;; TaskRunner_RunTurns c n'
  end.

(** [receiveMessage_] called once per message, in order. *)
Definition receive_all (messages : list string) : M unit :=
  for_each messages receiveMessage_.

(** What running task [t] in context [c] adds to the trace, when inspector
    [i] (if any) and session [s] are bound to [c]. *)
Definition task_events (i : option inspector) (s : option session)
    (c : context) (t : Task) : list Event :=
  match t with
  | ExecuteStringTask source => [ExecuteString c source]
  | SetTimeoutTask f =>
      match i with
      | Some i => [WillExecuteScript i c f; CallFunction c f;
                   DidExecuteScript i c]
      | None => [CallFunction c f]
      end
  | SendMessageToBackendTask m =>
      match s with
      | Some s => [DispatchProtocolMessage s m]
      | None => []
      end
  end.

(** Task [t] can run where session [s] (if any) is bound: a protocol task
    needs one. *)
Definition runnable (s : option session) (t : Task) : Prop :=
  is_inspector_task t = true -> is_Some s.

(** [w] with the queue of runner [r] emptied; an empty queue is left as it
    is. *)
Definition drained (r : runner) (w : World) : World :=
  match queue_of r w with
  | [] => w
  | _ :: _ => set_queues (<[r := []]> (queues w)) w
  end.

(** The code units before the first zero. *)
Fixpoint until_nul (l : list Z) : list Z :=
  match l with
  | [] => []
  | c :: l' => if decide (c = 0%Z) then [] else c :: until_nul l'
  end.

(** The runners [kore] has pushed on the global vector once it stands before
    statement [n]. *)
Definition pushed_before (n : nat) : list Startup.Stage :=
  omap (fun i => match i with Startup.PushBack s => Some s | _ => None end)
       (take n Startup.kore).

(** Statement [i] of [kore] has been executed. *)
Definition executed (i : Startup.Instr) (st : Startup.State) : Prop :=
  ∃ n, n < Startup.pc st ∧ Startup.kore !! n = Some i.

(** * Properties *)

(** Membership in a list whose elements are written out. *)
Ltac in_list := rewrite ?elem_of_cons, ?elem_of_nil; intuition congruence.

(** ** Shutdown *)

Lemma elem_of_terminate_all (rs : list runner) (t : gset runner) (r : runner) :
  r ∈ terminate_all rs t <-> r ∈ rs ∨ r ∈ t.
Proof.
  revert t. induction rs as [|r' rs IH]; intros t; simpl.
  - rewrite elem_of_nil. tauto.
  - rewrite IH, elem_of_union, elem_of_singleton, elem_of_cons. tauto.
Qed.

Lemma for_each_terminate_join (rs : list runner) (w : World) :
  for_each rs (fun r => TaskRunner_Terminate r ;; TaskRunner_Join r) w
  = Returns tt (set_terminated (terminate_all rs (terminated w))
                  (set_trace (trace w ++ shutdown_events rs) w)).
Proof.
  revert w. induction rs as [|r rs IH]; intros w.
  - destruct w. simpl. unfold set_terminated, set_trace. simpl.
    by rewrite app_nil_r.
  - simpl. unfold mbind, M_bind. simpl. rewrite IH.
    destruct w. unfold set_terminated, set_trace. simpl.
    by rewrite <- !app_assoc.
Qed.

Lemma Terminate_spec (w : World) :
  Terminate w
  = Returns tt (set_task_runners []
                  (set_terminated (terminate_all (task_runners w) (terminated w))
                     (set_trace (trace w ++ shutdown_events (task_runners w)) w))).
Proof.
  unfold Terminate, mbind, M_bind, gets. by rewrite for_each_terminate_join.
Qed.

Lemma Exit_spec (w : World) : Exit w = Returns tt (after_Exit w).
Proof.
  unfold Exit, mbind, M_bind. simpl. rewrite Terminate_spec.
  destruct w. unfold after_Exit, after, set_task_runners, set_terminated,
    set_trace. simpl.
  by rewrite <- !app_assoc.
Qed.

(** In [shutdown_events rs] the runner at index [i] is terminated at position
    [2 i] and joined at position [2 i + 1]. *)
Lemma shutdown_events_lookup (rs : list runner) (i : nat) :
  shutdown_events rs !! (2 * i) = RunnerTerminate <$> rs !! i ∧
  shutdown_events rs !! (2 * i + 1) = RunnerJoin <$> rs !! i.
Proof.
  revert i. induction rs as [|r rs IH]; intros i; [done|].
  destruct i as [|i]; [done|].
  replace (2 * S i) with (S (S (2 * i))) by lia.
  apply (IH i).
Qed.

(** C10: the global shutdown routine is idempotent on the runners.  The first
    [Terminate] terminates and joins every runner of the list and leaves the
    list empty; run again from there, [Terminate] changes nothing at all, and
    [Exit] only flushes: no further terminate or join of any runner. *)
Theorem C10_Terminate_idempotent (w : World) :
  ∃ w1,
    Terminate w = Returns tt w1 ∧
    trace w1 = trace w ++ shutdown_events (task_runners w) ∧
    task_runners w1 = [] ∧
    Terminate w1 = Returns tt w1 ∧
    Exit w1 = Returns tt (set_trace (trace w1 ++ [FlushStdout; FlushStderr]) w1).
Proof.
  eexists. split; [apply Terminate_spec|].
  split; [done|]. split; [done|]. split.
  - rewrite Terminate_spec. destruct w. simpl.
    unfold set_task_runners, set_terminated, set_trace. simpl.
    by rewrite app_nil_r.
  - rewrite Exit_spec. destruct w. simpl.
    unfold after_Exit, after, set_task_runners, set_terminated, set_trace.
    by simpl.
Qed.



(** ** Argument checks *)

Lemma rejection_spec (b : bool) (m : string) (w : World) :
  (if b then fprintf_stderr m ;; Exit else mret tt) w
  = Returns tt (if b then after_rejection m w else w).
Proof.
  destruct b; [|done].
  unfold mbind, M_bind, fprintf_stderr, emit, modify. by rewrite Exit_spec.
Qed.

Lemma registry_after_rejection (m : string) (w : World) :
  registry (after_rejection m w) = registry w.
Proof. done. Qed.

Lemma files_after_rejection (m : string) (w : World) :
  files (after_rejection m w) = files w.
Proof. done. Qed.

Lemma trace_after_rejection (m : string) (w : World) :
  trace (after_rejection m w)
  = trace w ++ Stderr m :: FlushStdout :: FlushStderr ::
      shutdown_events (task_runners w).
Proof. unfold after_rejection, after_Exit, after. simpl. by rewrite <- app_assoc. Qed.

Lemma SetTimeout_spec `{Engine} (args : FunctionCallbackInfo) (r : runner)
    (w : World) :
  registry w !! GetCurrentContext args = Some r ->
  SetTimeout args w
  = Returns tt
      (enqueue r (SetTimeout_task (arg (Args args) 0))
         (if SetTimeout_rejects args
          then after_rejection setTimeout_error w else w)).
Proof.
  intros Hr. unfold SetTimeout.
  unfold mbind at 1. unfold M_bind at 1. rewrite rejection_spec.
  fold setTimeout_error.
  set (w1 := if SetTimeout_rejects args then _ else w).
  assert (Hr1 : registry w1 !! GetCurrentContext args = Some r).
  { subst w1. by destruct (SetTimeout_rejects args). }
  unfold SetTimeout_task.
  destruct (arg (Args args) 0);
    unfold mbind, M_bind, TaskRunner_FromContext, gets, TaskRunner_Append,
      modify, mbind, M_bind; rewrite Hr1; done.
Qed.

Lemma SetLocale_spec `{Engine} (args : FunctionCallbackInfo) (w : World) :
  SetLocale args w
  = Returns tt
      (after [Setlocale (c_str <$> Utf8Value (arg (Args args) 0))]
         (if not_one_string args then after_rejection setlocale_error w
          else w)).
Proof.
  unfold SetLocale. unfold mbind at 1. unfold M_bind at 1.
  by rewrite rejection_spec.
Qed.

(** What [Load] does once its argument check is over. *)
Lemma Load_spec `{Engine} (args : FunctionCallbackInfo) (w : World) :
  let name := c_str (default EmptyString (Utf8Value (arg (Args args) 0))) in
  let w1 := if not_one_string args then after_rejection load_error w else w in
  Load args w
  = Returns tt
      (after (ReadFile name ::
                match files w !! name with
                | None => [ThrowException "Error loading file"]
                | Some chars => [ExecuteString (GetCurrentContext args) chars]
                end) w1).
Proof.
  intros name w1. unfold Load. unfold mbind at 1. unfold M_bind at 1.
  rewrite rejection_spec. fold load_error. fold w1. fold name.
  assert (Hf : files w1 = files w).
  { subst w1. by destruct (not_one_string args). }
  unfold mbind, M_bind, ReadFile_, mbind, M_bind, emit, modify, gets. simpl.
  rewrite Hf.
  destruct (files w !! name); unfold ExecuteStringTask_Run, emit, modify, after;
    simpl; by rewrite <- app_assoc.
Qed.

(** ** setTimeout *)

(** The three ways the claim names of failing the check of [SetTimeout]. *)
Lemma SetTimeout_rejects_cases (c : context) (l : list Value) :
  length l ≠ 2 ∨
  (IsFunction (arg l 0) = false ∧ IsString (arg l 0) = false) ∨
  (∃ d, arg l 1 = VNumber d ∧ SFeqb d (S754_zero false) = false) ->
  SetTimeout_rejects {| GetCurrentContext := c; Args := l |} = true.
Proof.
  unfold SetTimeout_rejects, Length. simpl.
  intros [Hlen | [[Hf Hs] | (d & Hd & Hnz)]].
  - apply Nat.eqb_neq in Hlen. by rewrite Hlen.
  - rewrite Hf, Hs. simpl. by rewrite !orb_true_r.
  - rewrite Hd. simpl. rewrite Hnz. by rewrite !orb_true_r.
Qed.

Lemma queue_of_enqueue (r : runner) (t : Task) (w : World) :
  queue_of r (enqueue r t w) = queue_of r w ++ [t].
Proof. unfold queue_of at 1, enqueue. simpl. by rewrite lookup_insert_eq. Qed.

Lemma queue_of_enqueue_ne (r r' : runner) (t : Task) (w : World) :
  r' ≠ r -> queue_of r' (enqueue r t w) = queue_of r' w.
Proof.
  intros Hne. unfold queue_of at 1, enqueue. simpl.
  by rewrite lookup_insert_ne.
Qed.

(** C3: with delay 0, [setTimeout] of a function puts a [SetTimeoutTask], and
    [setTimeout] of source text an [ExecuteStringTask], at the back of the
    queue of the runner that owns the calling context; no other queue and
    nothing of the trace changes, so nothing was run inline.  A non-zero
    delay, a target that is neither a function nor a string, or an argument
    count other than two runs the shutdown routine: the error is reported,
    the streams are flushed, and every known runner is terminated and joined,
    in list order, which empties the runner list. *)
Theorem C3_SetTimeout_defers_or_shuts_down `{Engine}
    (c : context) (r : runner) (w : World) :
  registry w !! c = Some r ->
  (∀ f d, SFeqb d (S754_zero false) = true ->
     ∃ w',
       SetTimeout {| GetCurrentContext := c;
                     Args := [VFunction f; VNumber d] |} w = Returns tt w' ∧
       w' = enqueue r (SetTimeoutTask f) w ∧
       queue_of r w' = queue_of r w ++ [SetTimeoutTask f] ∧
       (∀ r', r' ≠ r -> queue_of r' w' = queue_of r' w) ∧
       trace w' = trace w ∧ task_runners w' = task_runners w ∧
       terminated w' = terminated w) ∧
  (∀ s d, SFeqb d (S754_zero false) = true ->
     ∃ w',
       SetTimeout {| GetCurrentContext := c;
                     Args := [VString s; VNumber d] |} w = Returns tt w' ∧
       w' = enqueue r (ExecuteStringTask s) w ∧
       queue_of r w' = queue_of r w ++ [ExecuteStringTask s] ∧
       (∀ r', r' ≠ r -> queue_of r' w' = queue_of r' w) ∧
       trace w' = trace w ∧ task_runners w' = task_runners w ∧
       terminated w' = terminated w) ∧
  (∀ l,
     length l ≠ 2 ∨
     (IsFunction (arg l 0) = false ∧ IsString (arg l 0) = false) ∨
     (∃ d, arg l 1 = VNumber d ∧ SFeqb d (S754_zero false) = false) ->
     let w' := world_of (SetTimeout {| GetCurrentContext := c;
                                       Args := l |} w) in
     trace w' = trace w ++ Stderr setTimeout_error :: FlushStdout ::
                  FlushStderr :: shutdown_events (task_runners w) ∧
     (∀ i, shutdown_events (task_runners w) !! (2 * i)
             = RunnerTerminate <$> task_runners w !! i ∧
           shutdown_events (task_runners w) !! (2 * i + 1)
             = RunnerJoin <$> task_runners w !! i) ∧
     task_runners w' = [] ∧
     (∀ x, x ∈ terminated w' <-> x ∈ task_runners w ∨ x ∈ terminated w)).
Proof.
  intros Hr. split; [|split].
  - intros f d Hd. eexists. split.
    + rewrite (SetTimeout_spec _ r) by done.
      unfold SetTimeout_rejects, Length. simpl. by rewrite Hd.
    + split; [done|]. split; [apply queue_of_enqueue|].
      split; [|done]. intros r' Hne. by apply queue_of_enqueue_ne.
  - intros s d Hd. eexists. split.
    + rewrite (SetTimeout_spec _ r) by done.
      unfold SetTimeout_rejects, Length. simpl. by rewrite Hd.
    + split; [done|]. split; [apply queue_of_enqueue|].
      split; [|done]. intros r' Hne. by apply queue_of_enqueue_ne.
  - intros l Hl. rewrite (SetTimeout_spec _ r) by done.
    rewrite (SetTimeout_rejects_cases c l Hl). simpl.
    split; [apply trace_after_rejection|].
    split; [intros i; apply shutdown_events_lookup|].
    split; [done|]. intros x. apply elem_of_terminate_all.
Qed.

(** [setTimeout(f, 0)] from a frontend script puts one timer task on the
    frontend runner; [setTimeout(f, 1)] also shuts both runners down. *)
Lemma C3_SetTimeout_witness :
  (∃ w', SetTimeout (H := Example.sound_engine)
           (Example.call [VFunction 5; VNumber Example.zero]) Example.world
         = Returns tt w' ∧
         queue_of Example.frontend_runner w' = [SetTimeoutTask 5] ∧
         queue_of Example.backend_runner w' = [] ∧
         trace w' = [])
  ∧
  let w' := world_of (SetTimeout (H := Example.sound_engine)
                        (Example.call [VFunction 5; VNumber Example.one])
                        Example.world) in
  trace w' = [Stderr setTimeout_error; FlushStdout; FlushStderr;
              RunnerTerminate Example.frontend_runner;
              RunnerJoin Example.frontend_runner;
              RunnerTerminate Example.backend_runner;
              RunnerJoin Example.backend_runner] ∧
  task_runners w' = [] ∧
  Example.frontend_runner ∈ terminated w' ∧
  Example.backend_runner ∈ terminated w'.
Proof.
  destruct (C3_SetTimeout_defers_or_shuts_down (H := Example.sound_engine)
              Example.frontend_context Example.frontend_runner Example.world
              eq_refl) as (Hf & _ & Hbad).
  split.
  - destruct (Hf 5 Example.zero eq_refl)
      as (w' & Hrun & _ & Hq & Hother & Ht & _).
    exists w'. split; [exact Hrun|]. split; [exact Hq|].
    split; [|exact Ht].
    rewrite (Hother Example.backend_runner); [reflexivity|discriminate].
  - destruct (Hbad [VFunction 5; VNumber Example.one])
      as (Ht & _ & Hl & Hterm).
    + right. right. exists Example.one. split; reflexivity.
    + split; [exact Ht|]. split; [exact Hl|]. split.
      * apply Hterm. left. unfold Example.world. simpl. in_list.
      * apply Hterm. left. unfold Example.world. simpl. in_list.
Defined.

(** ** Failed argument checks *)



(** ** load *)

(** C5: [load(path)] of a missing file throws "Error loading file" into the
    calling script and returns; [load(path)] of an existing file executes the
    content at once in the calling context.  In both cases the call returns
    and no queue changes. *)
Theorem C5_Load_missing_or_inline `{Engine}
    (c : context) (path : string) (w : World) :
  let args := {| GetCurrentContext := c; Args := [VString path] |} in
  (files w !! c_str path = None ->
     Load args w
     = Returns tt (after [ReadFile (c_str path);
                          ThrowException "Error loading file"] w)) ∧
  (∀ chars, files w !! c_str path = Some chars ->
     Load args w
     = Returns tt (after [ReadFile (c_str path); ExecuteString c chars] w)).
Proof.
  intros args. split.
  - intros Hf. rewrite Load_spec. simpl. by rewrite Hf.
  - intros chars Hf. rewrite Load_spec. simpl. by rewrite Hf.
Qed.

Lemma C5_Load_witness :
  Load (H := Example.sound_engine) (Example.call [VString "nope.js"])
       Example.world
  = Returns tt (after [ReadFile "nope.js"; ThrowException "Error loading file"]
                  Example.world) ∧
  Load (H := Example.sound_engine) (Example.call [VString "test.js"])
       Example.world
  = Returns tt (after [ReadFile "test.js";
                       ExecuteString Example.frontend_context "print(1)"]
                  Example.world).
Proof.
  destruct (C5_Load_missing_or_inline (H := Example.sound_engine)
              Example.frontend_context "nope.js" Example.world) as [H1 _].
  destruct (C5_Load_missing_or_inline (H := Example.sound_engine)
              Example.frontend_context "test.js" Example.world) as [_ H2].
  split.
  - exact (H1 eq_refl).
  - exact (H2 "print(1)" eq_refl).
Defined.

(** ** Backend dispatch *)

Lemma SendMessageToBackendTask_Run_unbound (message : string) (c : context)
    (w : World) :
  sessions w !! c = None ->
  SendMessageToBackendTask_Run message c w = Stops CheckFailed w.
Proof.
  intros Hs. unfold SendMessageToBackendTask_Run, mbind, M_bind, gets.
  by rewrite Hs.
Qed.

Lemma SendMessageToBackendTask_Run_bound (message : string) (c : context)
    (s : session) (w : World) :
  sessions w !! c = Some s ->
  SendMessageToBackendTask_Run message c w
  = Returns tt (after [DispatchProtocolMessage s message] w).
Proof.
  intros Hs. unfold SendMessageToBackendTask_Run, mbind, M_bind, gets.
  by rewrite Hs.
Qed.

(** C6: run in a context with no session bound, a dispatch task aborts the
    process at its CHECK and dispatches nothing; run in a context with session
    [s] bound, it hands exactly the text it carries to [s], as one command,
    and does nothing else. *)
Theorem C6_dispatch_needs_session (message : string) (c : context) (w : World) :
  (sessions w !! c = None ->
     Run (SendMessageToBackendTask message) c w = Stops CheckFailed w) ∧
  (∀ s, sessions w !! c = Some s ->
     Run (SendMessageToBackendTask message) c w
     = Returns tt (after [DispatchProtocolMessage s message] w)).
Proof.
  split.
  - apply SendMessageToBackendTask_Run_unbound.
  - intros s. apply SendMessageToBackendTask_Run_bound.
Qed.

Lemma C6_dispatch_witness :
  Run (SendMessageToBackendTask "{}") Example.frontend_context Example.world
  = Stops CheckFailed Example.world ∧
  Run (SendMessageToBackendTask "{}") Example.backend_context Example.world
  = Returns tt (after [DispatchProtocolMessage 7 "{}"] Example.world).
Proof.
  split.
  - exact (proj1 (C6_dispatch_needs_session "{}" Example.frontend_context
                    Example.world) eq_refl).
  - exact (proj2 (C6_dispatch_needs_session "{}" Example.backend_context
                    Example.world) 7 eq_refl).
Defined.

(** One turn of a live runner's loop on a non-empty queue runs the head. *)
Lemma TaskRunner_RunNext_head (c : context) (r : runner) (t : Task)
    (q : list Task) (w : World) :
  registry w !! c = Some r ->
  r ∉ terminated w ->
  queue_of r w = t :: q ->
  TaskRunner_RunNext c w = Run t c (set_queues (<[r := q]> (queues w)) w).
Proof.
  intros Hr Hlive Hq.
  unfold TaskRunner_RunNext, mbind, M_bind, TaskRunner_FromContext, gets,
    mbind, M_bind.
  rewrite Hr. simpl. rewrite Hq.
  by rewrite bool_decide_eq_false_2.
Qed.

(** A terminated runner starts nothing. *)
Lemma TaskRunner_RunNext_terminated (c : context) (r : runner) (w : World) :
  registry w !! c = Some r ->
  r ∈ terminated w ->
  TaskRunner_RunNext c w = Returns tt w.
Proof.
  intros Hr Hdead.
  unfold TaskRunner_RunNext, mbind, M_bind, TaskRunner_FromContext, gets,
    mbind, M_bind.
  rewrite Hr. simpl. by rewrite bool_decide_eq_true_2.
Qed.

(** C4: with the backend runner [r] installed, [receiveMessage_] returns a
    world that differs from the one it started in only by one
    [SendMessageToBackendTask], carrying the message text, at the back of the
    queue of [r]: nothing is dispatched or executed by the call itself, and
    what it does is the same whatever the queue already holds.  When the loop
    of [r] later reaches that task, with [r] live and session [s] bound to its
    context, that turn dispatches the text to [s]. *)
Theorem C4_receiveMessage_only_enqueues (message : string) (r : runner)
    (w : World) :
  backend_task_runner w = Some r ->
  receiveMessage_ message w
  = Returns tt (enqueue r (SendMessageToBackendTask message) w) ∧
  trace (enqueue r (SendMessageToBackendTask message) w) = trace w ∧
  queue_of r (enqueue r (SendMessageToBackendTask message) w)
  = queue_of r w ++ [SendMessageToBackendTask message] ∧
  (∀ r', r' ≠ r ->
     queue_of r' (enqueue r (SendMessageToBackendTask message) w)
     = queue_of r' w) ∧
  is_inspector_task (SendMessageToBackendTask message) = true ∧
  (∀ c s q w2,
     registry w2 !! c = Some r -> sessions w2 !! c = Some s ->
     r ∉ terminated w2 ->
     queue_of r w2 = SendMessageToBackendTask message :: q ->
     TaskRunner_RunNext c w2
     = Returns tt (after [DispatchProtocolMessage s message]
                     (set_queues (<[r := q]> (queues w2)) w2))).
Proof.
  intros Hb. split; [|split; [|split; [|split; [|split]]]].
  - unfold receiveMessage_, mbind, M_bind, gets. by rewrite Hb.
  - done.
  - unfold queue_of at 1, enqueue. simpl. by rewrite lookup_insert_eq.
  - intros r' Hne. unfold queue_of at 1, enqueue. simpl.
    by rewrite lookup_insert_ne.
  - done.
  - intros c s q w2 Hr Hs Hlive Hq.
    rewrite (TaskRunner_RunNext_head c r _ q) by done.
    by apply SendMessageToBackendTask_Run_bound.
Qed.

(** "cmd1" arrives from the transport and is dispatched to session 7 by the
    next turn of the backend runner. *)
Lemma C4_receiveMessage_witness :
  receiveMessage_ "cmd1" Example.world
  = Returns tt (enqueue Example.backend_runner
                  (SendMessageToBackendTask "cmd1") Example.world) ∧
  TaskRunner_RunNext Example.backend_context
    (enqueue Example.backend_runner (SendMessageToBackendTask "cmd1")
       Example.world)
  = Returns tt (after [DispatchProtocolMessage 7 "cmd1"]
                  (set_queues {[Example.backend_runner := []]} Example.world)).
Proof.
  destruct (C4_receiveMessage_only_enqueues "cmd1" Example.backend_runner
              Example.world eq_refl) as (H1 & _ & _ & _ & _ & H6).
  split; [exact H1|].
  rewrite (H6 Example.backend_context 7 []); try reflexivity.
  apply not_elem_of_empty.
Defined.

(** ** print *)

Lemma after_after (es1 es2 : list Event) (w : World) :
  after es2 (after es1 w) = after (es1 ++ es2) w.
Proof. unfold after, set_trace. simpl. by rewrite app_assoc. Qed.

Lemma after_nil (w : World) : after [] w = w.
Proof. destruct w. unfold after, set_trace. simpl. by rewrite app_nil_r. Qed.

Lemma c_str_no_nul (s : string) :
  (∀ a, a ∈ list_ascii_of_string s -> a ≠ Ascii.zero) -> c_str s = s.
Proof.
  induction s as [|a s IH]; intros Hs; simpl; [done|].
  destruct (decide (a = Ascii.zero)) as [->|_].
  - exfalso. apply (Hs Ascii.zero); [|done]. simpl. apply list_elem_of_here.
  - rewrite IH; [done|]. intros b Hb. apply Hs. simpl.
    by apply list_elem_of_further.
Qed.

Lemma substring_all (s : string) : substring 0 (String.length s) s = s.
Proof. induction s as [|a s IH]; simpl; [done|]. by rewrite IH. Qed.

Lemma separator_spec (i : nat) (w : World) :
  (if decide (i ≠ 0) then printf " " else mret tt) w
  = Returns tt (after (separator i) w).
Proof.
  unfold separator. destruct (decide (i ≠ 0)); [done|].
  by rewrite after_nil.
Qed.


(** One turn of the loop on an argument that is written completely. *)
Lemma Print_loop_written `{Engine} (args : FunctionCallbackInfo) (i : nat)
    (a : Value) (rest : list Value) (s : string) (w : World) :
  print_text a = Some s ->
  String.length s <= fwrite_accepts (trace w ++ separator i) s ->
  Print_loop args i (a :: rest) w
  = Print_loop args (S i) rest (after (separator i ++ [Stdout s]) w).
Proof.
  intros Ha Hfull. simpl. unfold mbind at 1. unfold M_bind at 1.
  rewrite separator_spec. unfold print_text in Ha. rewrite Ha.
  unfold mbind at 1. unfold M_bind at 1. unfold fwrite. simpl.
  rewrite Nat.min_r by done. rewrite substring_all.
  unfold mbind at 1. unfold M_bind at 1.
  destruct (decide (String.length s ≠ String.length s)); [done|].
  simpl. f_equal. unfold after, set_trace. simpl. by rewrite <- app_assoc.
Qed.


(** The loop over a run of arguments that all convert and are all written
    whole. *)
Lemma Print_loop_prefix `{Engine} (args : FunctionCallbackInfo)
    (pre : list Value) (strs : list string) :
  converts pre strs ->
  writes_whole strs ->
  ∀ i rest w,
    Print_loop args i (pre ++ rest) w
    = Print_loop args (i + length pre) rest (after (print_events i strs) w).
Proof.
  intros Hall. unfold converts in Hall.
  induction Hall as [|a s pre strs Ha _ IH]; intros Hfull i rest w.
  - simpl. by rewrite Nat.add_0_r, after_nil.
  - rewrite <- app_comm_cons.
    rewrite (Print_loop_written args i a _ s);
      [|done|apply Hfull; apply list_elem_of_here].
    rewrite IH.
    + simpl. rewrite after_after. rewrite <- app_assoc. simpl.
      by rewrite Nat.add_succ_r.
    + intros h s' Hs'. apply Hfull. by apply list_elem_of_further.
Qed.







Lemma Print_tail (b : bool) (w : World) :
  (if b then printf newline ;; fflush_stdout else mret tt) w
  = Returns tt (after (if b then [Stdout newline; FlushStdout] else []) w).
Proof.
  destruct b.
  - unfold mbind, M_bind, printf, fflush_stdout, emit, modify, after, set_trace.
    simpl. by rewrite <- app_assoc.
  - by rewrite after_nil.
Qed.




(** ** Frontend channel *)

Lemma store_length (buf buf' : buffer) (i : nat) (v : Z) :
  store buf i v = Some buf' -> length buf' = length buf.
Proof.
  unfold store. destruct (decide (i < length buf)); [|done].
  intros [= <-]. apply length_insert.
Qed.

Lemma store_past_end (buf : buffer) (i : nat) (v : Z) :
  length buf <= i -> store buf i v = None.
Proof. intros Hi. unfold store. destruct (decide (i < length buf)); [lia|done]. Qed.

Lemma narrow_into_length (chars : list Z) (n : nat) :
  ∀ i buf buf', narrow_into chars n i buf = Some buf' -> length buf' = length buf.
Proof.
  induction n as [|n IH]; intros i buf buf'; simpl.
  - by intros [= <-].
  - destruct (chars !! i) as [c|]; simpl; [|done].
    destruct (store buf i (to_char c)) as [buf1|] eqn:Hst; simpl; [|done].
    intros Hn. rewrite (IH _ _ _ Hn). by apply store_length in Hst.
Qed.

Lemma store_next (pre rest : buffer) (x : option Z) (i : nat) (v : Z) :
  length pre = i ->
  store (pre ++ x :: rest) i v = Some (pre ++ Some v :: rest).
Proof.
  intros <-. unfold store. rewrite length_app. simpl.
  destruct (decide (length pre < length pre + S (length rest))); [|lia].
  rewrite insert_app_r_alt by lia. by rewrite Nat.sub_diag.
Qed.

(** The copy loop, on a buffer whose first [i] cells are written and which
    has room for [n] more. *)
Lemma narrow_into_fits (chars : list Z) (n : nat) :
  ∀ i (pre rest : buffer),
    length pre = i -> n <= length rest -> i + n <= length chars ->
    narrow_into chars n i (pre ++ rest)
    = Some (pre ++ (Some <$> (to_char <$> take n (drop i chars))) ++ drop n rest).
Proof.
  induction n as [|n IH]; intros i pre rest Hpre Hrest Hchars.
  - by rewrite take_0, drop_0.
  - simpl.
    destruct (lookup_lt_is_Some_2 chars i) as [c Hc]; [lia|].
    rewrite Hc. simpl.
    destruct rest as [|x rest]; [simpl in Hrest; lia|].
    rewrite store_next by done. simpl.
    replace (pre ++ Some (to_char c) :: rest)
      with ((pre ++ [Some (to_char c)]) ++ rest) by by rewrite <- app_assoc.
    rewrite IH.
    + rewrite <- app_assoc. simpl.
      by rewrite (drop_S chars c i Hc).
    + rewrite length_app. simpl. lia.
    + simpl in Hrest. lia.
    + lia.
Qed.

Lemma c_string_terminated (l : list Z) (rest : buffer) :
  Forall (fun c => c ≠ 0%Z) l ->
  c_string ((Some <$> l) ++ Some 0%Z :: rest) = Some l.
Proof.
  induction 1 as [|c l Hc _ IH]; [done|].
  rewrite fmap_cons. cbn [app c_string].
  destruct (decide (c = 0%Z)); [done|]. by rewrite IH.
Qed.

Lemma to_char_byte (c : Z) : (0 <= c <= 255)%Z -> to_char c = c.
Proof.
  intros Hc. unfold to_char. change 255%Z with (Z.ones 8).
  rewrite Z.land_ones by lia. apply Z.mod_small. lia.
Qed.

(** A 16-bit message whose code units are all in 1..255 and which is shorter
    than the buffer goes out whole. *)
Lemma SendMessageToFrontend_16bit_fits (message : StringView) (w : World) :
  is8Bit message = false ->
  well_formed message ->
  length_ message < msg_size ->
  Forall (fun c => (1 <= c <= 255)%Z) (text_of message) ->
  SendMessageToFrontend message w
  = Returns tt (after [SendMessage (text_of message)] w).
Proof.
  intros H16 Hwf Hlen Hbytes. unfold SendMessageToFrontend. rewrite H16.
  unfold well_formed in Hwf.
  assert (Hroom : length msg_uninitialised = msg_size).
  { unfold msg_uninitialised. apply length_replicate. }
  rewrite (narrow_into_fits _ _ 0 [] msg_uninitialised) by (done || lia).
  rewrite drop_0. fold (text_of message). simpl.
  assert (Hid : to_char <$> text_of message = text_of message).
  { induction Hbytes as [|c l Hc _ IH]; [done|].
    rewrite fmap_cons, IH. by rewrite to_char_byte by lia. }
  rewrite Hid.
  destruct (drop (length_ message) msg_uninitialised) as [|x rest] eqn:Hd.
  { apply (f_equal length) in Hd. rewrite length_drop, Hroom in Hd.
    simpl in Hd. lia. }
  rewrite store_next.
  2:{ rewrite length_fmap. unfold text_of. rewrite length_take. lia. }
  unfold sendMessage. rewrite c_string_terminated; [done|].
  eapply Forall_impl; [exact Hbytes|]. simpl. intros c Hc. lia.
Qed.

(** A 16-bit message of [msg_size] code units or more does not fit: the copy
    loop, or the store of the terminator, writes past the end of [msg], and
    nothing is sent. *)
Lemma narrow_into_overflow (chars : list Z) (n : nat) :
  ∀ i buf, length buf <= i + n ->
    match narrow_into chars n i buf with
    | None => True
    | Some msg => store msg (i + n) 0 = None
    end.
Proof.
  induction n as [|n IH]; intros i buf Hlen; simpl.
  - rewrite Nat.add_0_r in *. by apply store_past_end.
  - destruct (chars !! i) as [c|]; simpl; [|done].
    destruct (store buf i (to_char c)) as [buf1|] eqn:Hst; simpl; [|done].
    rewrite Nat.add_succ_r. apply (IH (S i)).
    apply store_length in Hst. lia.
Qed.

(** C1 fails on the code: a 16-bit message of 2048 code units or more
    overruns the fixed buffer [char msg[2048]]; the transport's send primitive
    is never reached with the message. *)
Theorem C1_SendMessageToFrontend_overruns_buffer (message : StringView)
    (w : World) :
  is8Bit message = false ->
  msg_size <= length_ message ->
  SendMessageToFrontend message w = Stops OutOfBounds w.
Proof.
  intros H16 Hlen. unfold SendMessageToFrontend. rewrite H16.
  assert (Hroom : length msg_uninitialised <= 0 + length_ message).
  { unfold msg_uninitialised. by rewrite length_replicate. }
  pose proof (narrow_into_overflow (characters message) (length_ message) 0
                msg_uninitialised Hroom) as Hov.
  change (0 + length_ message) with (length_ message) in Hov.
  destruct (narrow_into (characters message) (length_ message) 0
              msg_uninitialised) as [msg|]; [|done].
  by rewrite Hov.
Qed.

(** 2048 times the letter "a", as a 16-bit message. *)
Lemma C1_SendMessageToFrontend_witness :
  SendMessageToFrontend
    {| is8Bit := false; characters := replicate 2048 97%Z; length_ := 2048 |}
    Example.world
  = Stops OutOfBounds Example.world.
Proof.
  apply C1_SendMessageToFrontend_overruns_buffer.
  - reflexivity.
  - unfold msg_size. simpl. lia.
Defined.

(** One code unit fewer and the same message is delivered whole. *)
Lemma SendMessageToFrontend_2047 :
  SendMessageToFrontend
    {| is8Bit := false; characters := replicate 2047 97%Z; length_ := 2047 |}
    Example.world
  = Returns tt (after [SendMessage (replicate 2047 97%Z)] Example.world).
Proof. vm_compute. reflexivity. Qed.

(** The narrowing to [char] cuts a short message too: a code unit whose low
    byte is zero, here U+0100, ends the text the transport sees. *)
Lemma SendMessageToFrontend_narrowing_cuts :
  SendMessageToFrontend
    {| is8Bit := false; characters := [123; 256; 125]%Z; length_ := 3 |}
    Example.world
  = Returns tt (after [SendMessage [123%Z]] Example.world).
Proof. vm_compute. reflexivity. Qed.

(** An 8-bit message goes out whole, whatever its length, when the memory
    behind the view holds a terminator right after it. *)
Lemma SendMessageToFrontend_8bit_terminated (text : list Z) (rest : list Z)
    (w : World) :
  Forall (fun c => c ≠ 0%Z) text ->
  SendMessageToFrontend
    {| is8Bit := true; characters := text ++ 0%Z :: rest;
       length_ := length text |} w
  = Returns tt (after [SendMessage text] w).
Proof.
  intros Htext. unfold SendMessageToFrontend, sendMessage. simpl.
  rewrite fmap_app, fmap_cons. by rewrite c_string_terminated.
Qed.

(** ** Start-up *)

(** Every member of [k] is in a duplicate-free [l] that draws from [k] and is
    at least as long. *)
Lemma NoDup_covers {A} (l k : list A) :
  NoDup l -> (∀ x, x ∈ l -> x ∈ k) -> length k <= length l ->
  ∀ x, x ∈ k -> x ∈ l.
Proof.
  intros Hnd Hsub Hlen x Hx.
  assert (Hp : l ≡ₚ k).
  { apply submseteq_length_Permutation; [|done]. by apply NoDup_submseteq. }
  by rewrite Hp.
Qed.

Lemma Startup_invariant_initial : Startup.invariant Startup.initial.
Proof.
  unfold Startup.invariant, Startup.barrier. simpl.
  repeat split; try done; try lia.
  - apply NoDup_nil_2.
  - intros Hin. by apply elem_of_nil in Hin.
  - intros Hin. by apply elem_of_nil in Hin.
  - intros Hin. by apply elem_of_nil in Hin.
Qed.

Lemma Startup_invariant_signal (s : Startup.Stage) (st st' : Startup.State) :
  Startup.invariant st -> Startup.signal_step s st = Some st' ->
  Startup.invariant st'.
Proof.
  intros (Hpc & Hsem & Hst & Hnd & Hsub & Hb1 & Hb2 & Hb3).
  unfold Startup.signal_step.
  destruct (decide _) as [[Hin Hnot]|]; [|done]. intros [= <-].
  unfold Startup.invariant, Startup.barrier. simpl.
  repeat split; try done.
  - rewrite length_app. simpl. lia.
  - apply NoDup_app. repeat split; [done| |apply NoDup_singleton].
    intros x Hx Hx'. apply list_elem_of_singleton in Hx'. by subst x.
  - intros x Hx. apply elem_of_app in Hx as [Hx|Hx]; [by apply Hsub|].
    apply list_elem_of_singleton in Hx. by subst x.
  - intros Hx. apply elem_of_app. left. by apply Hb1.
  - intros Hx. apply elem_of_app. left. by apply Hb2.
  - intros Hx. apply elem_of_app. left. by apply Hb3.
Qed.

(** Membership in a list that is written out. *)
Ltac in_concrete :=
  repeat (rewrite ?elem_of_cons, ?elem_of_nil in * ); intuition congruence.

Ltac cases_upto n k :=
  lazymatch k with
  | O => idtac
  | S ?k' => destruct n as [|n]; [|cases_upto n k']
  end.

Ltac eval_startup :=
  repeat match goal with
  | |- context [Startup.started_before ?k] =>
      let v := eval vm_compute in (Startup.started_before k) in
      change (Startup.started_before k) with v
  | |- context [Startup.waits_before ?k] =>
      let v := eval vm_compute in (Startup.waits_before k) in
      change (Startup.waits_before k) with v
  | H : context [Startup.started_before ?k] |- _ =>
      let v := eval vm_compute in (Startup.started_before k) in
      change (Startup.started_before k) with v in H
  | H : context [Startup.waits_before ?k] |- _ =>
      let v := eval vm_compute in (Startup.waits_before k) in
      change (Startup.waits_before k) with v in H
  end.

Ltac new_party sg :=
  intros _;
  match goal with
  | Hnd : NoDup sg, Hsub : (∀ s, s ∈ sg -> s ∈ ?k) |- _ ∈ sg =>
      apply (NoDup_covers sg k Hnd Hsub); [simpl; lia | in_concrete]
  end.

Lemma Startup_invariant_main (st st' : Startup.State) :
  Startup.invariant st -> Startup.main_step st = Some st' ->
  Startup.invariant st'.
Proof.
  destruct st as [n sem stt sg tr].
  intros (Hpc & Hsem & Hst & Hnd & Hsub & Hb1 & Hb2 & Hb3).
  unfold Startup.main_step. simpl in *.
  cases_upto n 14; simpl in *; [..|intros; lia]; subst stt;
    try match goal with
        | |- match ?s with _ => _ end = _ -> _ => destruct s; [done|]
        end;
    intros [= <-]; unfold Startup.invariant, Startup.barrier; simpl;
    eval_startup;
    repeat split; try done; try lia;
    try (intros s Hs; specialize (Hsub s Hs); in_concrete);
    try in_concrete;
    try new_party sg.
Qed.

Lemma Startup_invariant_reachable (st : Startup.State) :
  Startup.reachable st -> Startup.invariant st.
Proof.
  unfold Startup.reachable. revert st.
  apply (rtc_ind_r Startup.invariant).
  - apply Startup_invariant_initial.
  - intros st1 st2 _ Hstep IH. destruct Hstep as [Hmain|s Hsig].
    + by apply (Startup_invariant_main st1).
    + by apply (Startup_invariant_signal s st1).
Qed.

Lemma Startup_run_reachable (schedule : list (option Startup.Stage)) :
  ∀ st st', Startup.reachable st -> Startup.run schedule st = Some st' ->
            Startup.reachable st'.
Proof.
  induction schedule as [|[s|] schedule IH]; intros st st' Hst; simpl.
  - by intros [= <-].
  - destruct (Startup.signal_step s st) as [st1|] eqn:Hs; simpl; [|done].
    apply IH. eapply rtc_r; [exact Hst|]. by apply (Startup.step_signal _ _ s).
  - destruct (Startup.main_step st) as [st1|] eqn:Hm; simpl; [|done].
    apply IH. eapply rtc_r; [exact Hst|]. by apply Startup.step_main.
Qed.

(** C8, as amended: start-up is a three-wait barrier.  In every state the
    start-up can reach, the frontend runner exists only if the backend runner
    has signalled, the inspector client exists only if the frontend runner has
    signalled, and the transport server has been started only if the
    inspector client has signalled.  After starting the server the main
    thread waits for nothing: once at its idle loop it stays there, whatever
    the semaphore holds. *)
Theorem C8_startup_three_stage_barrier (st : Startup.State) :
  Startup.reachable st ->
  (Startup.Frontend ∈ Startup.started st ->
   Startup.Backend ∈ Startup.signalled st) ∧
  (Startup.Bridge ∈ Startup.started st ->
   Startup.Frontend ∈ Startup.signalled st) ∧
  (Startup.Transport ∈ Startup.started st ->
   Startup.Bridge ∈ Startup.signalled st) ∧
  Startup.waits_before (Startup.pc st) <= 3 ∧
  (Startup.pc st = Startup.idle -> Startup.main_step st = Some st).
Proof.
  intros Hr. apply Startup_invariant_reachable in Hr.
  destruct Hr as (Hpc & _ & _ & _ & _ & Hb1 & Hb2 & Hb3).
  repeat split; try done.
  - destruct st as [n sem stt sg tr]. simpl in *.
    cases_upto n 14; first [vm_compute; lia | simpl in Hpc; lia].
  - intros Hidle. destruct st as [n sem stt sg tr]. simpl in Hidle.
    by subst n.
Qed.

Lemma C8_startup_witness :
  Startup.Bridge ∈ Startup.signalled Example.idling ∧
  Startup.main_step Example.idling = Some Example.idling.
Proof.
  assert (Hr : Startup.reachable Example.idling).
  { apply (Startup_run_reachable Example.schedule Startup.initial).
    - apply rtc_refl.
    - reflexivity. }
  destruct (C8_startup_three_stage_barrier Example.idling Hr)
    as (_ & _ & Hb3 & _ & Hidle).
  split.
  - apply Hb3. unfold Example.idling. simpl. in_concrete.
  - apply Hidle. reflexivity.
Defined.

(** C8 as stated fails: there is no fourth wait.  The main thread reaches its
    idle loop, the server started, while the transport has not signalled. *)
Lemma C8_transport_signal_not_awaited :
  ∃ st, Startup.reachable st ∧
        Startup.pc st = Startup.idle ∧
        Startup.Transport ∈ Startup.started st ∧
        Startup.Transport ∉ Startup.signalled st.
Proof.
  exists Example.idling. split; [|split; [|split]].
  - apply (Startup_run_reachable Example.schedule Startup.initial).
    + apply rtc_refl.
    + reflexivity.
  - reflexivity.
  - unfold Example.idling. simpl. in_concrete.
  - unfold Example.idling. simpl. intros Hin. in_concrete.
Qed.

(** * Further properties *)

(** ** Which arguments pass the checks *)

Lemma SFeqb_zero (d : spec_float) :
  SFeqb d (S754_zero false) = true <-> ∃ sign, d = S754_zero sign.
Proof.
  split.
  - destruct d as [sign|[]| |[] m e]; try discriminate.
    intros _. by exists sign.
  - intros [sign ->]. done.
Qed.

Lemma SetTimeout_rejects_false (args : FunctionCallbackInfo) :
  SetTimeout_rejects args = false <->
  ∃ target sign,
    Args args = [target; VNumber (S754_zero sign)] ∧
    (IsFunction target = true ∨ IsString target = true).
Proof.
  unfold SetTimeout_rejects, Length. destruct args as [c l]. simpl. split.
  - intros Hacc.
    destruct l as [|target [|delay [|x l]]]; try discriminate.
    simpl in Hacc. unfold arg in Hacc. simpl in Hacc.
    destruct delay as [| | |d| | | |]; try discriminate. simpl in Hacc.
    destruct (SFeqb d (S754_zero false)) eqn:Hd;
      [|by rewrite orb_true_r in Hacc].
    apply SFeqb_zero in Hd as [sign ->].
    exists target, sign. split; [done|].
    destruct (IsFunction target), (IsString target); auto; discriminate.
  - intros (target & sign & -> & Hshape). unfold arg. simpl.
    destruct Hshape as [-> | ->]; simpl; by rewrite ?andb_false_r.
Qed.

Lemma app_cons_neq {A} (l l' : list A) (x : A) : l ++ x :: l' ≠ l.
Proof.
  intros Heq. apply (f_equal length) in Heq.
  rewrite length_app in Heq. simpl in Heq. lia.
Qed.

(** [setTimeout] leaves the trace alone exactly when it is called with two
    arguments, a function or a string followed by the number +0 or -0; then
    it only appends its task to the queue of the calling runner, and the
    runner list and the terminated runners stay as they are.  In every other
    case (among them a delay that is no number, or NaN, or a third argument)
    it reports the error and runs the shutdown: both streams are flushed,
    every runner of the list is terminated and joined in list order, and the
    list is emptied. *)
Theorem SetTimeout_quiet_iff `{Engine} (args : FunctionCallbackInfo)
    (r : runner) (w : World) :
  registry w !! GetCurrentContext args = Some r ->
  let w' := world_of (SetTimeout args w) in
  (trace w' = trace w <-> SetTimeout_accepts args) ∧
  (SetTimeout_accepts args ->
     task_runners w' = task_runners w ∧ terminated w' = terminated w ∧
     queue_of r w' = queue_of r w ++ [SetTimeout_task (arg (Args args) 0)]) ∧
  (¬ SetTimeout_accepts args ->
     trace w' = trace w ++ Stderr setTimeout_error :: FlushStdout ::
                  FlushStderr :: shutdown_events (task_runners w) ∧
     (∀ i, shutdown_events (task_runners w) !! (2 * i)
             = RunnerTerminate <$> task_runners w !! i ∧
           shutdown_events (task_runners w) !! (2 * i + 1)
             = RunnerJoin <$> task_runners w !! i) ∧
     task_runners w' = [] ∧
     (∀ x, x ∈ terminated w' <-> x ∈ task_runners w ∨ x ∈ terminated w)).
Proof.
  intros Hr. unfold SetTimeout_accepts. rewrite <- SetTimeout_rejects_false.
  rewrite (SetTimeout_spec args r w Hr). simpl.
  destruct (SetTimeout_rejects args); (split; [|split]); try done.
  - split; [|done]. rewrite trace_after_rejection.
    intros Heq. by apply app_cons_neq in Heq.
  - intros _. split; [apply trace_after_rejection|].
    split; [intros i; apply shutdown_events_lookup|].
    split; [done|]. intros x. apply elem_of_terminate_all.
  - intros _. split; [done|]. split; [done|]. apply queue_of_enqueue.
Qed.

(** [setTimeout("f()", -0)] only enqueues; [setTimeout(f, "0")], whose delay
    is a string, shuts both runners down. *)
Lemma SetTimeout_quiet_witness :
  (let w' := world_of (SetTimeout (H := Example.sound_engine)
                         (Example.call [VString "f()"; VNumber (S754_zero true)])
                         Example.world) in
   trace w' = [] ∧
   queue_of Example.frontend_runner w' = [ExecuteStringTask "f()"]) ∧
  (let w' := world_of (SetTimeout (H := Example.sound_engine)
                         (Example.call [VFunction 5; VString "0"])
                         Example.world) in
   trace w' = [Stderr setTimeout_error; FlushStdout; FlushStderr;
               RunnerTerminate Example.frontend_runner;
               RunnerJoin Example.frontend_runner;
               RunnerTerminate Example.backend_runner;
               RunnerJoin Example.backend_runner] ∧
   task_runners w' = []).
Proof.
  split.
  - destruct (SetTimeout_quiet_iff (H := Example.sound_engine)
                (Example.call [VString "f()"; VNumber (S754_zero true)])
                Example.frontend_runner Example.world eq_refl)
      as (Hiff & Hacc & _).
    assert (Ha : SetTimeout_accepts
                   (Example.call [VString "f()"; VNumber (S754_zero true)])).
    { exists (VString "f()"), true. split; [reflexivity|]. by right. }
    split; [by apply Hiff|]. by apply Hacc.
  - destruct (SetTimeout_quiet_iff (H := Example.sound_engine)
                (Example.call [VFunction 5; VString "0"])
                Example.frontend_runner Example.world eq_refl)
      as (_ & _ & Hrej).
    destruct Hrej as (Ht & _ & Hl & _).
    + intros (target & sign & Hargs & _). discriminate Hargs.
    + split; [exact Ht|exact Hl].
Defined.

Lemma not_one_string_false (args : FunctionCallbackInfo) :
  not_one_string args = false <-> ∃ s, Args args = [VString s].
Proof.
  unfold not_one_string, Length. destruct args as [c l]. simpl. split.
  - destruct l as [|v [|x l]]; try discriminate.
    unfold arg. simpl. destruct v; try discriminate. intros _. by eexists.
  - intros [s ->]. done.
Qed.

(** [setlocale] and [load] pass their argument check exactly on one string
    argument.  Then [setlocale] does one thing only: it calls the C
    [setlocale] with the name, cut at its first NUL; nothing is flushed and
    no runner is touched. *)
Theorem SetLocale_one_string `{Engine} (c : context) (w : World) :
  (∀ l, not_one_string {| GetCurrentContext := c; Args := l |} = false <->
        ∃ s, l = [VString s]) ∧
  (∀ s, SetLocale {| GetCurrentContext := c; Args := [VString s] |} w
        = Returns tt (after [Setlocale (Some (c_str s))] w)).
Proof.
  split.
  - intros l. apply (not_one_string_false {| GetCurrentContext := c; Args := l |}).
  - intros s. by rewrite SetLocale_spec.
Qed.

(** ** Templates *)

(** [UtilsExtension] hands out a template for exactly the four functions its
    source declares, a different function for each name; every other name,
    "setTimeout" among them, gets the empty template.  [SetTimeoutExtension]
    answers every name with [SetTimeout]. *)
Theorem GetNativeFunctionTemplate_declared (name : string) :
  (is_Some (UtilsExtension_GetNativeFunctionTemplate name) <->
   name ∈ UtilsExtension_declared) ∧
  (∀ name', is_Some (UtilsExtension_GetNativeFunctionTemplate name) ->
     UtilsExtension_GetNativeFunctionTemplate name
     = UtilsExtension_GetNativeFunctionTemplate name' -> name = name') ∧
  UtilsExtension_GetNativeFunctionTemplate name ≠ Some NativeSetTimeout ∧
  SetTimeoutExtension_GetNativeFunctionTemplate name = Some NativeSetTimeout.
Proof.
  unfold UtilsExtension_GetNativeFunctionTemplate, UtilsExtension_declared.
  split; [|split; [|split]].
  - rewrite !elem_of_cons, elem_of_nil.
    repeat (destruct (decide _) as [->|?]); split;
      try (intros _; eauto using mk_is_Some; tauto);
      try (intros [x Hx]; discriminate);
      try (intros [?|[?|[?|[?|[]]]]]; congruence).
  - intros name' Hsome.
    repeat (destruct (decide (name = _)) as [->|?]);
      repeat (destruct (decide (name' = _)) as [->|?]);
      try done; try discriminate.
  - repeat (destruct (decide _)); discriminate.
  - reflexivity.
Qed.

(** ** After the shutdown *)

Lemma TaskRunner_RunTurns_terminated (c : context) (r : runner) (w : World) :
  registry w !! c = Some r -> r ∈ terminated w ->
  ∀ n, TaskRunner_RunTurns c n w = Returns tt w.
Proof.
  intros Hr Hdead n. induction n as [|n IH]; [done|].
  simpl. unfold mbind, M_bind.
  by rewrite (TaskRunner_RunNext_terminated c r w Hr Hdead).
Qed.

(** Once [quit()] has run, a runner of the list starts no task again, however
    many turns its loop takes; a protocol message that arrives afterwards is
    still put on the backend queue, and stays there. *)
Theorem nothing_runs_after_Exit (c : context) (r : runner) (w : World)
    (n : nat) :
  registry w !! c = Some r -> r ∈ task_runners w ->
  (Exit ;; TaskRunner_RunTurns c n) w = Exit w ∧
  (backend_task_runner w = Some r ->
   ∀ message,
     (Exit ;; receiveMessage_ message ;; TaskRunner_RunTurns c n) w
     = Returns tt (enqueue r (SendMessageToBackendTask message) (after_Exit w))).
Proof.
  intros Hr Hin.
  assert (Hdead : r ∈ terminated (after_Exit w)).
  { apply elem_of_terminate_all. by left. }
  split.
  - unfold mbind at 1. unfold M_bind at 1. rewrite Exit_spec.
    by apply (TaskRunner_RunTurns_terminated c r).
  - intros Hb message.
    unfold mbind at 1. unfold M_bind at 1. rewrite Exit_spec.
    unfold mbind at 1. unfold M_bind at 1.
    unfold receiveMessage_, mbind at 1. unfold M_bind at 1, gets. simpl.
    rewrite Hb. unfold TaskRunner_Append, modify.
    by apply (TaskRunner_RunTurns_terminated c r).
Qed.

Lemma nothing_runs_after_Exit_witness :
  (Exit ;; receiveMessage_ "late" ;;
   TaskRunner_RunTurns Example.backend_context 3) Example.world
  = Returns tt (enqueue Example.backend_runner
                  (SendMessageToBackendTask "late")
                  (after_Exit Example.world)).
Proof.
  apply (nothing_runs_after_Exit Example.backend_context
           Example.backend_runner Example.world 3).
  - reflexivity.
  - unfold Example.world. simpl. in_concrete.
  - reflexivity.
Defined.

(** The task that [setTimeout] still enqueues after a failed argument check
    is never started when the calling runner is one of the list: the shutdown
    the check ran has terminated it. *)
Theorem rejected_SetTimeout_task_never_runs `{Engine}
    (args : FunctionCallbackInfo) (r : runner) (w : World) (n : nat) :
  registry w !! GetCurrentContext args = Some r ->
  r ∈ task_runners w ->
  SetTimeout_rejects args = true ->
  (SetTimeout args ;; TaskRunner_RunTurns (GetCurrentContext args) n) w
  = SetTimeout args w.
Proof.
  intros Hr Hin Hbad.
  unfold mbind at 1. unfold M_bind at 1.
  rewrite (SetTimeout_spec args r w Hr), Hbad.
  apply (TaskRunner_RunTurns_terminated _ r); [done|].
  simpl. apply elem_of_terminate_all. by left.
Qed.

Lemma rejected_SetTimeout_witness :
  (SetTimeout (H := Example.sound_engine)
     (Example.call [VFunction 5; VNumber Example.one]) ;;
   TaskRunner_RunTurns Example.frontend_context 2) Example.world
  = SetTimeout (H := Example.sound_engine)
      (Example.call [VFunction 5; VNumber Example.one]) Example.world.
Proof.
  apply (rejected_SetTimeout_task_never_runs (H := Example.sound_engine)
           (Example.call [VFunction 5; VNumber Example.one])
           Example.frontend_runner Example.world 2).
  - reflexivity.
  - unfold Example.world. simpl. in_concrete.
  - reflexivity.
Defined.

(** ** The loop and the tasks *)

(** Running one task, where it can run. *)
Lemma Run_events (t : Task) (c : context) (w : World) :
  runnable (sessions w !! c) t ->
  Run t c w
  = Returns tt (after (task_events (inspectors w !! c) (sessions w !! c) c t) w).
Proof.
  intros Hrun. destruct t as [source|f|m]; simpl.
  - done.
  - unfold SetTimeoutTask_Run, mbind, M_bind, gets.
    destruct (inspectors w !! c) as [i|]; simpl.
    + unfold emit, modify, after, set_trace. simpl.
      by rewrite <- !app_assoc.
    + done.
  - destruct (Hrun eq_refl) as [s Hs]. rewrite Hs.
    by apply SendMessageToBackendTask_Run_bound.
Qed.

(** As many turns as the queue is long run every queued task, oldest first,
    and leave the queue empty. *)
Lemma TaskRunner_RunTurns_drains (c : context) (r : runner) (q : list Task) :
  ∀ w,
    registry w !! c = Some r -> r ∉ terminated w ->
    Forall (runnable (sessions w !! c)) q ->
    queue_of r w = q ->
    TaskRunner_RunTurns c (length q) w
    = Returns tt
        (after (q ≫= task_events (inspectors w !! c) (sessions w !! c) c)
               (drained r w)).
Proof.
  induction q as [|t q IH]; intros w Hr Hlive Hrun Hq.
  - simpl. unfold drained. rewrite Hq. by rewrite after_nil.
  - simpl. unfold mbind at 1. unfold M_bind at 1.
    rewrite (TaskRunner_RunNext_head c r t q w Hr Hlive Hq).
    inversion Hrun as [|? ? Ht Hq']; subst.
    rewrite Run_events by done. simpl.
    set (w1 := after _ _).
    assert (Hq1 : queue_of r w1 = q).
    { unfold w1, queue_of. simpl. by rewrite lookup_insert_eq. }
    rewrite (IH w1); try done.
    f_equal. unfold drained. rewrite Hq, Hq1.
    unfold w1. destruct q as [|t' q].
    + simpl. rewrite app_nil_r. by rewrite after_nil.
    + unfold after, set_queues, set_trace. simpl.
      rewrite insert_insert_eq. by rewrite <- app_assoc.
Qed.

(** A turn on an empty queue does nothing. *)
Lemma TaskRunner_RunNext_idle (c : context) (r : runner) (w : World) :
  registry w !! c = Some r -> queue_of r w = [] ->
  TaskRunner_RunNext c w = Returns tt w.
Proof.
  intros Hr Hq.
  unfold TaskRunner_RunNext, mbind, M_bind, TaskRunner_FromContext, gets,
    mbind, M_bind.
  rewrite Hr. simpl. rewrite Hq. by destruct (bool_decide _).
Qed.

(** What [receive_all] leaves behind. *)
Lemma receive_all_spec (messages : list string) (r : runner) :
  ∀ w, backend_task_runner w = Some r ->
    ∃ w', receive_all messages w = Returns tt w' ∧
          queue_of r w' = queue_of r w ++ (SendMessageToBackendTask <$> messages) ∧
          trace w' = trace w ∧ registry w' = registry w ∧
          terminated w' = terminated w ∧ sessions w' = sessions w ∧
          inspectors w' = inspectors w.
Proof.
  unfold receive_all.
  induction messages as [|m messages IH]; intros w Hb.
  - exists w. simpl. by rewrite app_nil_r.
  - simpl. unfold mbind at 1. unfold M_bind at 1.
    unfold receiveMessage_ at 1, mbind at 1. unfold M_bind at 1, gets.
    rewrite Hb. unfold TaskRunner_Append, modify.
    destruct (IH (enqueue r (SendMessageToBackendTask m) w) Hb)
      as (w' & -> & Hq & Ht & Hreg & Hterm & Hs & Hi).
    exists w'. split; [done|]. rewrite Hq, Ht, Hreg, Hterm, Hs, Hi.
    repeat split; try done.
    unfold queue_of at 1, enqueue. simpl. rewrite lookup_insert_eq. simpl.
    by rewrite <- app_assoc.
Qed.

(** Messages handed to [receiveMessage_] are dispatched to the session of the
    backend context one per turn, in the order they arrived, after everything
    that was queued before them. *)
Theorem messages_dispatched_in_order (messages : list string)
    (c : context) (r : runner) (s : session) (w : World) :
  backend_task_runner w = Some r ->
  registry w !! c = Some r -> r ∉ terminated w ->
  sessions w !! c = Some s ->
  ∃ w',
    (receive_all messages ;;
     TaskRunner_RunTurns c (length (queue_of r w) + length messages)) w
    = Returns tt w' ∧
    trace w' = trace w ++
                 (queue_of r w ≫= task_events (inspectors w !! c) (Some s) c) ++
                 (DispatchProtocolMessage s <$> messages) ∧
    queue_of r w' = [].
Proof.
  intros Hb Hr Hlive Hs.
  destruct (receive_all_spec messages r w Hb)
    as (w1 & Hrecv & Hq1 & Ht1 & Hreg1 & Hterm1 & Hs1 & Hi1).
  unfold mbind at 1. unfold M_bind at 1. rewrite Hrecv.
  replace (length (queue_of r w) + length messages)
    with (length (queue_of r w1))
    by (rewrite Hq1, length_app, length_fmap; done).
  rewrite (TaskRunner_RunTurns_drains c r (queue_of r w1));
    [|by rewrite Hreg1|by rewrite Hterm1| |done].
  2:{ rewrite Hs1, Hs. apply Forall_forall. intros t _ _. by eexists. }
  eexists. split; [done|]. split.
  - simpl. rewrite Hs1, Hi1, Hs, Hq1.
    assert (Htd : trace (drained r w1) = trace w1).
    { unfold drained. by destruct (queue_of r w1). }
    rewrite Htd, Ht1. f_equal. rewrite bind_app. f_equal.
    clear. induction messages as [|m messages IH]; [done|].
    rewrite !fmap_cons, bind_cons, IH. done.
  - unfold drained. destruct (queue_of r w1) eqn:Hq; simpl.
    + done.
    + unfold queue_of. simpl. by rewrite lookup_insert_eq.
Qed.

Lemma messages_dispatched_witness :
  ∃ w',
    (receive_all ["cmd1"; "cmd2"] ;;
     TaskRunner_RunTurns Example.backend_context 2) Example.world
    = Returns tt w' ∧
    trace w' = [DispatchProtocolMessage 7 "cmd1";
                DispatchProtocolMessage 7 "cmd2"] ∧
    queue_of Example.backend_runner w' = [].
Proof.
  apply (messages_dispatched_in_order ["cmd1"; "cmd2"]
           Example.backend_context Example.backend_runner 7 Example.world).
  - reflexivity.
  - reflexivity.
  - apply not_elem_of_empty.
  - reflexivity.
Defined.

(** [print] of arguments that all convert, on a stdout that takes them. *)
Lemma Print_all_written `{Engine} (args : FunctionCallbackInfo)
    (strs : list string) (w : World) :
  converts (Args args) strs -> writes_whole strs ->
  Print args w
  = Returns tt (after (print_events 0 strs ++ [Stdout newline; FlushStdout]) w).
Proof.
  intros Hconv Hwhole.
  unfold Print. unfold mbind at 1. unfold M_bind at 1.
  rewrite <- (app_nil_r (Args args)).
  rewrite (Print_loop_prefix args _ strs) by done.
  cbn [Print_loop mret M_ret]. rewrite (Print_tail true).
  by rewrite after_after.
Qed.

(** What [setTimeout(target, 0)] schedules runs later: a script that calls
    [setTimeout] and then [print] has its output written first; the target
    runs when the loop of the runner gets to it, after every task that was
    already queued. *)
Theorem SetTimeout_target_runs_later `{Engine} (c : context) (r : runner)
    (target : Value) (sign : bool) (pargs : list Value) (strs : list string)
    (w : World) :
  registry w !! c = Some r -> r ∉ terminated w ->
  Forall (runnable (sessions w !! c)) (queue_of r w) ->
  IsFunction target = true ∨ IsString target = true ->
  converts pargs strs -> writes_whole strs ->
  ∃ w',
    (SetTimeout {| GetCurrentContext := c;
                   Args := [target; VNumber (S754_zero sign)] |} ;;
     Print {| GetCurrentContext := c; Args := pargs |} ;;
     TaskRunner_RunTurns c (length (queue_of r w) + 1)) w
    = Returns tt w' ∧
    trace w' = trace w ++
                 (print_events 0 strs ++ [Stdout newline; FlushStdout]) ++
                 (queue_of r w
                    ≫= task_events (inspectors w !! c) (sessions w !! c) c) ++
                 task_events (inspectors w !! c) (sessions w !! c) c
                             (SetTimeout_task target) ∧
    queue_of r w' = [].
Proof.
  intros Hr Hlive Hrun Hshape Hconv Hwhole.
  set (args := {| GetCurrentContext := c;
                  Args := [target; VNumber (S754_zero sign)] |}).
  assert (Hacc : SetTimeout_rejects args = false).
  { apply SetTimeout_rejects_false. by exists target, sign. }
  unfold mbind at 1. unfold M_bind at 1.
  rewrite (SetTimeout_spec args r w Hr), Hacc.
  unfold mbind at 1. unfold M_bind at 1.
  rewrite (Print_all_written _ strs) by done.
  set (task := SetTimeout_task (arg (Args args) 0)).
  set (w2 := after _ _).
  assert (Hq2 : queue_of r w2 = queue_of r w ++ [task]).
  { unfold w2, queue_of at 1, enqueue. simpl. by rewrite lookup_insert_eq. }
  replace (length (queue_of r w) + 1) with (length (queue_of r w2))
    by (rewrite Hq2, length_app; done).
  assert (Htask : runnable (sessions w !! c) task).
  { unfold task, arg. simpl. intros Hi.
    destruct target; simpl in *; discriminate. }
  rewrite (TaskRunner_RunTurns_drains c r (queue_of r w2)); try done.
  2:{ rewrite Hq2. apply Forall_app. split; [done|]. by apply Forall_singleton. }
  eexists. split; [done|]. split.
  - assert (Htd : trace (drained r w2) = trace w2).
    { unfold drained. by destruct (queue_of r w2). }
    simpl. rewrite Htd, Hq2, bind_app. simpl.
    rewrite app_nil_r. by rewrite <- !app_assoc.
  - unfold drained. destruct (queue_of r w2) eqn:Hq; simpl.
    + done.
    + unfold queue_of. simpl. by rewrite lookup_insert_eq.
Qed.

(** [setTimeout(f, 0); print("y")] in a frontend script: "y" and the newline
    are out before [f] is called. *)
Lemma SetTimeout_target_runs_later_witness :
  ∃ w',
    (SetTimeout (H := Example.sound_engine)
       (Example.call [VFunction 5; VNumber Example.zero]) ;;
     Print (H := Example.sound_engine) (Example.call [VString "y"]) ;;
     TaskRunner_RunTurns Example.frontend_context 1) Example.world
    = Returns tt w' ∧
    trace w' = [Stdout "y"; Stdout newline; FlushStdout;
                CallFunction Example.frontend_context 5] ∧
    queue_of Example.frontend_runner w' = [].
Proof.
  apply (SetTimeout_target_runs_later (H := Example.sound_engine)
           Example.frontend_context Example.frontend_runner (VFunction 5)
           false [VString "y"] ["y"] Example.world).
  - reflexivity.
  - apply not_elem_of_empty.
  - constructor.
  - by left.
  - repeat constructor.
  - intros h s _. simpl. lia.
Defined.

(** ** What reaches the transport *)

Lemma c_string_until_nul (l : list Z) (rest : buffer) :
  c_string ((Some <$> l) ++ Some 0%Z :: rest) = Some (until_nul l).
Proof.
  induction l as [|c l IH]; [done|].
  rewrite fmap_cons. cbn [app c_string until_nul].
  destruct (decide (c = 0%Z)); [done|]. by rewrite IH.
Qed.

Lemma until_nul_nonzero (l : list Z) : Forall (fun c => c ≠ 0%Z) (until_nul l).
Proof.
  induction l as [|c l IH]; simpl; [constructor|].
  destruct (decide (c = 0%Z)); by constructor.
Qed.

Lemma until_nul_length (l : list Z) : length (until_nul l) <= length l.
Proof.
  induction l as [|c l IH]; simpl; [done|].
  destruct (decide (c = 0%Z)); simpl; lia.
Qed.

Lemma until_nul_subset (l : list Z) (c : Z) : c ∈ until_nul l -> c ∈ l.
Proof.
  induction l as [|x l IH]; simpl; [done|].
  destruct (decide (x = 0%Z)); [by intros ?%elem_of_nil|].
  rewrite !elem_of_cons. intros [->|Hc]; auto.
Qed.

Lemma to_char_range (c : Z) : (0 <= to_char c <= 255)%Z.
Proof.
  unfold to_char. change 255%Z with (Z.ones 8).
  rewrite Z.land_ones by lia.
  change (2 ^ 8)%Z with 256%Z. change (Z.ones 8) with 255%Z.
  pose proof (Z.mod_pos_bound c 256) as Hb. lia.
Qed.

Lemma SendMessageToFrontend_16bit_sends (message : StringView) (w : World) :
  is8Bit message = false ->
  well_formed message ->
  length_ message < msg_size ->
  SendMessageToFrontend message w
  = Returns tt
      (after [SendMessage (until_nul (to_char <$> text_of message))] w).
Proof.
  intros H16 Hwf Hlen. unfold SendMessageToFrontend. rewrite H16.
  unfold well_formed in Hwf.
  assert (Hroom : length msg_uninitialised = msg_size).
  { unfold msg_uninitialised. apply length_replicate. }
  rewrite (narrow_into_fits _ _ 0 [] msg_uninitialised) by (done || lia).
  rewrite drop_0. fold (text_of message). simpl.
  destruct (drop (length_ message) msg_uninitialised) as [|x rest] eqn:Hd.
  { apply (f_equal length) in Hd. rewrite length_drop, Hroom in Hd.
    simpl in Hd. lia. }
  rewrite store_next.
  2:{ rewrite !length_fmap. unfold text_of. rewrite length_take. lia. }
  unfold sendMessage. by rewrite c_string_until_nul.
Qed.

(** A 16-bit message inside its memory and shorter than the buffer is always
    sent, and what is sent is its narrowing: the low byte of each code unit,
    cut before the first unit whose low byte is zero. *)
Theorem SendMessageToFrontend_16bit_narrowed (message : StringView) (w : World) :
  is8Bit message = false ->
  well_formed message ->
  length_ message < msg_size ->
  SendMessageToFrontend message w
  = Returns tt
      (after [SendMessage (until_nul (to_char <$> text_of message))] w).
Proof. apply SendMessageToFrontend_16bit_sends. Qed.

(** "{", U+0141 and "}" arrive as "{A}". *)
Lemma SendMessageToFrontend_16bit_narrowed_witness :
  SendMessageToFrontend
    {| is8Bit := false; characters := [123; 321; 125]%Z; length_ := 3 |}
    Example.world
  = Returns tt (after [SendMessage [123; 65; 125]%Z] Example.world).
Proof.
  apply (SendMessageToFrontend_16bit_narrowed
           {| is8Bit := false; characters := [123; 321; 125]%Z; length_ := 3 |}
           Example.world).
  - reflexivity.
  - unfold well_formed. simpl. lia.
  - unfold msg_size. simpl. lia.
Defined.

(** The narrowing leaves a text as it is exactly when every code unit is in
    1..255. *)
Lemma narrowing_lossless_iff (l : list Z) :
  until_nul (to_char <$> l) = l <-> Forall (fun c => (1 <= c <= 255)%Z) l.
Proof.
  induction l as [|c l IH]; [by split; [constructor|]|].
  rewrite fmap_cons. cbn [until_nul]. split.
  - destruct (decide (to_char c = 0%Z)); [discriminate|].
    intros [= Hc Hl]. constructor.
    + pose proof (to_char_range c). lia.
    + by apply IH.
  - inversion 1 as [|? ? Hc Hl]; subst.
    rewrite (to_char_byte c) by lia.
    destruct (decide (c = 0%Z)); [lia|]. f_equal. by apply IH.
Qed.

(** A 16-bit message inside its memory and shorter than the buffer reaches
    the transport unchanged exactly when each of its code units is in 1..255;
    any unit above 255, or a zero, changes or cuts what is sent. *)
Theorem SendMessageToFrontend_16bit_whole_iff (message : StringView)
    (w : World) :
  is8Bit message = false ->
  well_formed message ->
  length_ message < msg_size ->
  SendMessageToFrontend message w
  = Returns tt (after [SendMessage (text_of message)] w) <->
  Forall (fun c => (1 <= c <= 255)%Z) (text_of message).
Proof.
  intros H16 Hwf Hlen.
  rewrite (SendMessageToFrontend_16bit_sends message w H16 Hwf Hlen).
  rewrite <- narrowing_lossless_iff. split.
  - intros [= Heq]. apply app_inv_head in Heq. by injection Heq.
  - by intros ->.
Qed.

(** "ab" goes out whole; "a", U+20AC does not. *)
Lemma SendMessageToFrontend_16bit_whole_witness :
  SendMessageToFrontend
    {| is8Bit := false; characters := [97; 98]%Z; length_ := 2 |} Example.world
  = Returns tt (after [SendMessage [97; 98]%Z] Example.world) ∧
  SendMessageToFrontend
    {| is8Bit := false; characters := [97; 8364]%Z; length_ := 2 |}
    Example.world
  ≠ Returns tt (after [SendMessage [97; 8364]%Z] Example.world).
Proof.
  split.
  - apply (SendMessageToFrontend_16bit_whole_iff
             {| is8Bit := false; characters := [97; 98]%Z; length_ := 2 |}
             Example.world).
    + reflexivity.
    + unfold well_formed. simpl. lia.
    + unfold msg_size. simpl. lia.
    + repeat constructor; lia.
  - intros Heq.
    apply (SendMessageToFrontend_16bit_whole_iff
             {| is8Bit := false; characters := [97; 8364]%Z; length_ := 2 |}
             Example.world) in Heq.
    + inversion Heq as [|? ? _ Hrest]. inversion Hrest as [|? ? Hc _]. lia.
    + reflexivity.
    + unfold well_formed. simpl. lia.
    + unfold msg_size. simpl. lia.
Defined.

(** Reading a C string out of memory gives the bytes before its first NUL. *)
Lemma c_string_Some (l text : list Z) :
  c_string (Some <$> l) = Some text ->
  Forall (fun c => c ≠ 0%Z) text ∧ ∃ rest, l = text ++ 0%Z :: rest.
Proof.
  revert text. induction l as [|c l IH]; intros text; [done|].
  rewrite fmap_cons. cbn [c_string].
  destruct (decide (c = 0%Z)) as [->|Hc].
  - intros [= <-]. split; [constructor|]. by exists l.
  - destruct (c_string (Some <$> l)) as [t|]; [|done].
    intros [= <-]. destruct (IH t eq_refl) as [Hnz [rest ->]].
    split; [by constructor|]. by exists rest.
Qed.

(** On a view that lies inside its memory and, when 16-bit, is shorter than
    the buffer, a call that sends adds exactly one send to the trace and
    changes nothing else of the world: the frontend runner the channel was
    built with is not used.  The text sent has no NUL in it.  For an 8-bit
    view it is the memory up to its first NUL; for a 16-bit view it is at
    most as long as the message and made of bytes 1..255. *)
Theorem SendMessageToFrontend_outcome (message : StringView) (w w' : World) :
  well_formed message ->
  (is8Bit message = false -> length_ message < msg_size) ->
  SendMessageToFrontend message w = Returns tt w' ->
  ∃ text,
    w' = after [SendMessage text] w ∧
    Forall (fun c => c ≠ 0%Z) text ∧
    (is8Bit message = true ->
     ∃ rest, characters message = text ++ 0%Z :: rest) ∧
    (is8Bit message = false ->
     text = until_nul (to_char <$> text_of message) ∧
     length text <= length_ message ∧
     Forall (fun c => (1 <= c <= 255)%Z) text).
Proof.
  intros Hwf Hlen. destruct (is8Bit message) eqn:H8.
  - unfold SendMessageToFrontend, sendMessage. rewrite H8.
    destruct (c_string (Some <$> characters message)) as [text|] eqn:Hc;
      [|discriminate].
    intros [= <-]. exists text.
    destruct (c_string_Some _ _ Hc) as [Hnz Hrest].
    split; [done|]. split; [done|]. split; [done|]. discriminate.
  - rewrite (SendMessageToFrontend_16bit_sends message w H8 Hwf (Hlen eq_refl)).
    intros [= <-]. eexists. split; [done|].
    split; [apply until_nul_nonzero|]. split; [discriminate|]. intros _.
    split; [done|].
    pose proof (until_nul_length (to_char <$> text_of message)) as Hl.
    rewrite length_fmap in Hl. unfold text_of in Hl at 2.
    rewrite length_take in Hl. split; [lia|].
    apply Forall_forall. intros c Hc.
    pose proof (until_nul_nonzero (to_char <$> text_of message)) as Hnz.
    rewrite Forall_forall in Hnz. specialize (Hnz c Hc).
    apply until_nul_subset, list_elem_of_fmap in Hc as (x & -> & _).
    pose proof (to_char_range x). lia.
Qed.

(** "{", U+0141, NUL, "}" as a 16-bit message: one send, of "{A". *)
Lemma SendMessageToFrontend_outcome_witness :
  ∃ text,
    world_of (SendMessageToFrontend
                {| is8Bit := false; characters := [123; 321; 0; 125]%Z;
                   length_ := 4 |} Example.world)
    = after [SendMessage text] Example.world ∧
    text = [123; 65]%Z.
Proof.
  destruct (SendMessageToFrontend_outcome
              {| is8Bit := false; characters := [123; 321; 0; 125]%Z;
                 length_ := 4 |}
              Example.world
              (after [SendMessage [123; 65]%Z] Example.world))
    as (text & Hw & _ & _ & H16).
  - unfold well_formed. simpl. lia.
  - intros _. unfold msg_size. simpl. lia.
  - reflexivity.
  - exists text. destruct (H16 eq_refl) as (-> & _). split; reflexivity.
Defined.

(** An 8-bit view that lies inside its memory is sent up to the first NUL
    found behind the pointer, whatever length the view states: a NUL inside
    the message cuts it, and when the view ends before the NUL the bytes
    after its end are sent as well. *)
Theorem SendMessageToFrontend_8bit_reads_to_nul (text rest : list Z) (n : nat)
    (w : World) :
  Forall (fun c => c ≠ 0%Z) text ->
  well_formed {| is8Bit := true; characters := text ++ 0%Z :: rest;
                 length_ := n |} ->
  SendMessageToFrontend
    {| is8Bit := true; characters := text ++ 0%Z :: rest; length_ := n |} w
  = Returns tt (after [SendMessage text] w).
Proof.
  intros Htext _. unfold SendMessageToFrontend, sendMessage. simpl.
  rewrite fmap_app, fmap_cons. by rewrite c_string_terminated.
Qed.

(** A view of five bytes over "ab", NUL, "cd", NUL is sent as "ab"; a view of
    one byte over the same memory is sent as "ab" too. *)
Lemma SendMessageToFrontend_8bit_witness :
  SendMessageToFrontend
    {| is8Bit := true; characters := [97; 98; 0; 99; 100; 0]%Z; length_ := 5 |}
    Example.world
  = Returns tt (after [SendMessage [97; 98]%Z] Example.world) ∧
  SendMessageToFrontend
    {| is8Bit := true; characters := [97; 98; 0; 99; 100; 0]%Z; length_ := 1 |}
    Example.world
  = Returns tt (after [SendMessage [97; 98]%Z] Example.world).
Proof.
  split.
  - apply (SendMessageToFrontend_8bit_reads_to_nul [97; 98]%Z [99; 100; 0]%Z 5
             Example.world).
    + repeat constructor; discriminate.
    + unfold well_formed. simpl. lia.
  - apply (SendMessageToFrontend_8bit_reads_to_nul [97; 98]%Z [99; 100; 0]%Z 1
             Example.world).
    + repeat constructor; discriminate.
    + unfold well_formed. simpl. lia.
Defined.

(** ** More on the start-up *)

Lemma NoDup_subset_length {A} (l k : list A) :
  NoDup l -> (∀ x, x ∈ l -> x ∈ k) -> length l <= length k.
Proof.
  intros Hnd Hsub. apply submseteq_length. by apply NoDup_submseteq.
Qed.

(** The one semaphore is enough: in every state the start-up can reach its
    count is 0 or 1, so no signal is ever stacked on another and each [Wait]
    consumes the signal of the party created just before it. *)
Theorem startup_semaphore_at_most_one (st : Startup.State) :
  Startup.reachable st -> Startup.ready_semaphore st <= 1.
Proof.
  intros Hr. apply Startup_invariant_reachable in Hr.
  destruct Hr as (Hpc & Hsem & Hst & Hnd & Hsub & _).
  pose proof (NoDup_subset_length _ _ Hnd Hsub) as Hlen.
  rewrite Hst in Hlen.
  destruct st as [n sem stt sg tr]. simpl in *.
  cases_upto n 14; [..|simpl in Hpc; lia];
    eval_startup; simpl in Hlen; lia.
Qed.

Lemma startup_semaphore_witness :
  Startup.ready_semaphore Example.idling <= 1.
Proof.
  apply startup_semaphore_at_most_one.
  apply (Startup_run_reachable Example.schedule Startup.initial).
  - apply rtc_refl.
  - reflexivity.
Defined.

Lemma Startup_task_runners_reachable (st : Startup.State) :
  Startup.reachable st ->
  Startup.invariant st ∧
  Startup.task_runners st = pushed_before (Startup.pc st).
Proof.
  unfold Startup.reachable. revert st.
  apply (rtc_ind_r (fun st => Startup.invariant st ∧
                              Startup.task_runners st
                              = pushed_before (Startup.pc st))).
  - split; [apply Startup_invariant_initial|done].
  - intros st1 st2 _ Hstep [Hinv Htr]. destruct Hstep as [Hmain|s Hsig].
    + split; [by apply (Startup_invariant_main st1)|].
      destruct Hinv as (Hpc & _).
      destruct st1 as [n sem stt sg tr]. simpl in *. subst tr.
      unfold Startup.main_step in Hmain. simpl in Hmain.
      cases_upto n 14; [..|simpl in Hpc; lia]; simpl in Hmain;
        try (destruct sem; [discriminate|]);
        injection Hmain as <-; reflexivity.
    + split; [by apply (Startup_invariant_signal s st1)|].
      unfold Startup.signal_step in Hsig.
      destruct (decide _); [|discriminate]. by injection Hsig as <-.
Qed.

(** By the time [receiveMessage_] is installed as the transport's callback,
    [backend_task_runner] has been set, the runner list is complete, frontend
    first, and the backend runner, the frontend runner and the inspector
    client have all signalled. *)
Theorem startup_callback_installed_last (st : Startup.State) :
  Startup.reachable st ->
  executed Startup.SetReceiveCallback st ->
  executed Startup.SetBackendTaskRunner st ∧
  Startup.task_runners st = [Startup.Frontend; Startup.Backend] ∧
  Startup.Backend ∈ Startup.signalled st ∧
  Startup.Frontend ∈ Startup.signalled st ∧
  Startup.Bridge ∈ Startup.signalled st.
Proof.
  intros Hr (n & Hn & Hk).
  apply Startup_task_runners_reachable in Hr as [Hinv Htr].
  destruct Hinv as (Hpc & Hsem & Hst & Hnd & Hsub & Hb1 & Hb2 & Hb3).
  assert (n = 11) as ->.
  { pose proof (lookup_lt_Some _ _ _ Hk) as Hlt.
    cases_upto n 14; [..|simpl in Hlt; lia]; try discriminate. reflexivity. }
  destruct st as [m sem stt sg tr]. simpl in *.
  cases_upto m 14; [..|simpl in Hpc; lia]; try lia;
    eval_startup; subst stt; subst tr.
  - assert (Hbr : Startup.Bridge ∈ sg).
    { apply (NoDup_covers sg _ Hnd Hsub); [simpl; lia|in_concrete]. }
    split; [exists 1; split; [simpl; lia|done]|]. split; [done|].
    split; [apply Hb1; in_concrete|]. split; [apply Hb2; in_concrete|done].
  - split; [exists 1; split; [simpl; lia|done]|]. split; [done|].
    split; [apply Hb1; in_concrete|]. split; [apply Hb2; in_concrete|].
    apply Hb3. in_concrete.
Qed.

Lemma startup_callback_witness :
  Startup.task_runners Example.idling = [Startup.Frontend; Startup.Backend] ∧
  Startup.Bridge ∈ Startup.signalled Example.idling.
Proof.
  assert (Hr : Startup.reachable Example.idling).
  { apply (Startup_run_reachable Example.schedule Startup.initial).
    - apply rtc_refl.
    - reflexivity. }
  destruct (startup_callback_installed_last Example.idling Hr)
    as (_ & Htr & _ & _ & Hbr).
  - exists 11. split; [unfold Example.idling, Startup.idle; simpl; lia|done].
  - by split.
Defined.

(** The main thread takes its next step. *)
Ltac main_steps :=
  eexists; split;
  [apply rtc_once, Startup.step_main; reflexivity|reflexivity].

(** Party [s] signals, then the main thread takes its next step. *)
Ltac signal_then_main s :=
  eexists; split;
  [eapply rtc_l;
   [apply (Startup.step_signal _ _ s); reflexivity
   |apply rtc_once, Startup.step_main; reflexivity]
  |reflexivity].

(** From a state short of the idle loop the main thread can be brought one
    statement further: it steps at once, or the party it waits for signals
    first. *)
Lemma Startup_advance (st : Startup.State) :
  Startup.invariant st -> Startup.pc st < Startup.idle ->
  ∃ st', rtc Startup.step st st' ∧ Startup.pc st' = S (Startup.pc st).
Proof.
  intros (Hpc & Hsem & Hst & Hnd & Hsub & Hb1 & Hb2 & Hb3) Hidle.
  destruct st as [n sem stt sg tr]. unfold Startup.idle in Hidle. simpl in *.
  cases_upto n 13; [..|lia]; eval_startup; subst stt;
    try main_steps.
  - destruct sem as [|sem]; [|main_steps].
    destruct sg as [|x sg]; [|simpl in Hsem; lia].
    signal_then_main Startup.Backend.
  - destruct sem as [|sem]; [|main_steps].
    assert (HB : Startup.Backend ∈ sg) by (apply Hb1; in_concrete).
    destruct sg as [|x [|y sg]]; simpl in Hsem; try lia.
    apply list_elem_of_singleton in HB. subst x.
    signal_then_main Startup.Frontend.
  - destruct sem as [|sem]; [|main_steps].
    assert (HB : Startup.Backend ∈ sg) by (apply Hb1; in_concrete).
    assert (HF : Startup.Frontend ∈ sg) by (apply Hb2; in_concrete).
    destruct sg as [|x [|y [|z sg]]]; simpl in Hsem; try lia.
    destruct x, y; try (exfalso; in_concrete);
      signal_then_main Startup.Bridge.
Qed.

Lemma Startup_reaches_idle (k : nat) :
  ∀ st, Startup.reachable st -> Startup.idle - Startup.pc st = k ->
        ∃ st', rtc Startup.step st st' ∧ Startup.pc st' = Startup.idle.
Proof.
  induction k as [|k IH]; intros st Hr Hk.
  - exists st. split; [apply rtc_refl|].
    apply Startup_invariant_reachable in Hr as (Hpc & _).
    unfold Startup.idle in *. simpl in Hpc. lia.
  - destruct (Startup_advance st) as (st1 & Hsteps & Hpc1).
    + by apply Startup_invariant_reachable.
    + lia.
    + destruct (IH st1) as (st' & Hsteps' & Hidle).
      * unfold Startup.reachable. by etrans.
      * lia.
      * exists st'. split; [by etrans|done].
Qed.

(** The start-up cannot get stuck as long as the parties do signal: from
    every state it can reach, some run leads on to the idle loop, where the
    server has been started.  The main thread itself is held up at one kind
    of place only, a [Wait] on a semaphore that counts zero. *)
Theorem startup_can_always_complete (st : Startup.State) :
  Startup.reachable st ->
  (∃ st', rtc Startup.step st st' ∧ Startup.pc st' = Startup.idle ∧
          Startup.Transport ∈ Startup.started st') ∧
  (Startup.main_step st = None <->
   Startup.kore !! Startup.pc st = Some Startup.Wait ∧
   Startup.ready_semaphore st = 0).
Proof.
  intros Hr. split.
  - destruct (Startup_reaches_idle _ st Hr eq_refl) as (st' & Hsteps & Hidle).
    exists st'. split; [done|]. split; [done|].
    assert (Hr' : Startup.reachable st') by (unfold Startup.reachable; by etrans).
    apply Startup_invariant_reachable in Hr' as (_ & _ & Hst & _).
    rewrite Hst, Hidle. unfold Startup.idle. eval_startup. in_concrete.
  - apply Startup_invariant_reachable in Hr as (Hpc & _).
    destruct st as [n sem stt sg tr]. unfold Startup.main_step. simpl in *.
    cases_upto n 14; [..|lia]; simpl;
      try (split; [discriminate|intros [Hw _]; discriminate]);
      destruct sem; split; try done; try discriminate;
      intros [_ Hz]; discriminate.
Qed.

Lemma startup_can_complete_witness :
  ∃ st', rtc Startup.step Startup.initial st' ∧
         Startup.pc st' = Startup.idle ∧
         Startup.Transport ∈ Startup.started st'.
Proof.
  apply (startup_can_always_complete Startup.initial). apply rtc_refl.
Defined.
